(** * SmartABTester: the A/B-test decision engine of
      [src/smart_decision_engine.py]

    The engine is a thin layer of decision logic over routines of numpy,
    scipy and statsmodels.  The embedding keeps that shape:

    - a data frame is the list of its rows, each with the two columns a
      call names: a variant label, a string that is never null, and a
      metric value, where NaN is the null of a pandas float column;
    - numbers are floats: a finite value is a rational kept in lowest
      terms, next to the two infinities and NaN (signed zeros are not
      represented).  The engine is modelled over operations that do not
      round; the integrity checker, whose output is a computed double, is
      modelled as well over an arbitrary rounded arithmetic, of which
      binary64 is an instance;
    - every library routine the source calls is a [call] of the program
      tree [prog]; [run] executes a tree against a library, which answers a
      call or raises, and records the calls made;
    - dictionaries are finite maps from keys to values. *)

From Stdlib Require Import QArith Qreduction Qcanon Qpower.
From stdpp Require Import gmap strings list sorting.

Local Open Scope string_scope.
Local Open Scope Z_scope.
Local Open Scope list_scope.

(** ** Floats *)

Inductive float : Type :=
| Fin (q : Q)
| PInf
| NInf
| NaN.

(** The operations below compute without rounding; [radd], [rsub], [rmul]
    and [rdiv] further down are their counterparts that round. *)
Definition fadd (a b : float) : float :=
  match a, b with
  | NaN, _ | _, NaN => NaN
  | Fin x, Fin y => Fin (Qred (x + y))
  | PInf, NInf | NInf, PInf => NaN
  | PInf, _ | _, PInf => PInf
  | NInf, _ | _, NInf => NInf
  end.

Definition fsub (a b : float) : float :=
  match a, b with
  | NaN, _ | _, NaN => NaN
  | Fin x, Fin y => Fin (Qred (x - y))
  | PInf, PInf | NInf, NInf => NaN
  | PInf, _ | _, NInf => PInf
  | NInf, _ | _, PInf => NInf
  end.

(** Sign of a rational: -1, 0 or 1. *)
Definition Qsgn (x : Q) : Z := Z.sgn (Qnum x).

Definition inf_of_sign (s : Z) : float :=
  match s with
  | Z0 => NaN
  | Zpos _ => PInf
  | Zneg _ => NInf
  end.

Definition fsign (a : float) : Z :=
  match a with
  | Fin x => Qsgn x
  | PInf => 1
  | NInf => -1
  | NaN => 0
  end.

Definition fmul (a b : float) : float :=
  match a, b with
  | NaN, _ | _, NaN => NaN
  | Fin x, Fin y => Fin (Qred (x * y))
  | _, _ => inf_of_sign (fsign a * fsign b)
  end.

Definition fdiv (a b : float) : float :=
  match a, b with
  | NaN, _ | _, NaN => NaN
  | Fin x, Fin y =>
      if Qeq_bool y 0 then inf_of_sign (Qsgn x) else Fin (Qred (x / y))
  | Fin _, _ => Fin 0
  | _, Fin y => if Qeq_bool y 0 then a else inf_of_sign (fsign a * Qsgn y)
  | _, _ => NaN
  end.

Definition fltb (a b : float) : bool :=
  match a, b with
  | NaN, _ | _, NaN => false
  | Fin x, Fin y => negb (Qle_bool y x)
  | NInf, NInf | PInf, _ | _, NInf => false
  | NInf, _ | _, PInf => true
  end.

Definition fgtb (a b : float) : bool := fltb b a.

Definition feqb (a b : float) : bool :=
  match a, b with
  | Fin x, Fin y => Qeq_bool x y
  | PInf, PInf | NInf, NInf => true
  | _, _ => false
  end.

Definition isnan (a : float) : bool :=
  match a with NaN => true | _ => false end.

Definition of_int (z : Z) : float := Fin (inject_Z z).

(** [len(l)]. *)
Definition len {A} (l : list A) : Z := Z.of_nat (length l).

(** [ndarray.sum()] of a float array. *)
Definition fsum (l : list float) : float := foldr fadd (Fin 0) l.

(** [np.mean] of an integer array: the sum over the length, in floats, so
    the mean of an empty array is NaN. *)
Definition np_mean (l : list Z) : float :=
  fdiv (of_int (foldr Z.add 0 l)) (of_int (len l)).

(** [np.repeat(x, n)]. *)
Definition np_repeat (x : float) (n : nat) : list float := replicate n x.

(** ** Data frames *)

Record row : Type := Row { variant : string; metric : float }.

Definition frame : Type := list row.

(** [Series.unique()]: the distinct values in order of first appearance. *)
Fixpoint unique_by {A} (eqb : A → A → bool) (l : list A) : list A :=
  match l with
  | [] => []
  | x :: l' => x :: List.filter (λ y, negb (eqb x y)) (unique_by eqb l')
  end.

Definition unique_labels (df : frame) : list string :=
  unique_by String.eqb (variant <$> df).

(** [df[df[variant_col] == v]]. *)
Definition rows_of (v : string) (df : frame) : frame :=
  List.filter (λ r, String.eqb (variant r) v) df.

(** [Series.dropna()] on the metric column. *)
Definition dropna (l : list float) : list float :=
  List.filter (λ x, negb (isnan x)) l.

(** [df[df[variant_col] == v][metric_col].dropna().values]. *)
Definition arm (v : string) (df : frame) : list float :=
  dropna (metric <$> rows_of v df).

(** The rows per distinct label, labels in order of first appearance. *)
Definition first_seen_counts (df : frame) : list Z :=
  (λ v, Z.of_nat (length (rows_of v df))) <$> unique_labels df.

(** [df[variant_col].value_counts().values]: the counts per distinct label,
    largest first. *)
Definition value_counts (df : frame) : list Z :=
  merge_sort (flip Z.le) (first_seen_counts df).

(** [set(df[metric_col].dropna().unique())]. *)
Definition unique_vals (df : frame) : list float :=
  unique_by feqb (dropna (metric <$> df)).

(** [s <= t] on Python sets of numbers. *)
Definition set_le (s t : list float) : bool :=
  forallb (λ x, existsb (feqb x) t) s.

(** ** Dictionaries *)

Inductive atom : Type :=
| AStr (s : string)
| ANum (x : float)
| ABool (b : bool).

Inductive value : Type :=
| VAtom (a : atom)
| VDict (d : gmap string atom).

(** ** Library calls *)

Inductive call : Type :=
| chi2_cdf (x : float) (dof : Z)
| random_choice (a : list float) (size : Z) (replace : bool)
| shapiro (x : list float)
| proportions_ztest (count : list float) (nobs : list Z)
| ttest_ind (a b : list float) (equal_var : bool)
| mannwhitneyu (x y : list float) (alternative : string).

Definition resp (c : call) : Type :=
  match c with
  | chi2_cdf _ _ => float
  | random_choice _ _ _ => list float
  | _ => (float * float)%type
  end.

Inductive exn : Type :=
| IndexError (index size : nat)
| LibraryError (c : call).

(** ** Programs *)

Inductive prog (A : Type) : Type :=
| Ret (a : A)
| Raise (e : exn)
| Vis (c : call) (k : resp c → prog A).

Arguments Ret {A} a.
Arguments Raise {A} e.
Arguments Vis {A} c k.

Fixpoint bind {A B} (p : prog A) (f : A → prog B) : prog B :=
  match p with
  | Ret a => f a
  | Raise e => Raise e
  | Vis c k => Vis c (λ r, bind (k r) f)
  end.

Notation "'let*' x := p 'in' q" := (bind p (λ x, q))
  (at level 10, x name, p at level 100, q at level 200).

Definition invoke (c : call) : prog (resp c) := Vis c Ret.

(** [l[i]] on an array. *)
Definition getitem {A} (l : list A) (i : nat) : prog A :=
  match l !! i with
  | Some x => Ret x
  | None => Raise (IndexError i (length l))
  end.

(** A library answers a call or raises, and may keep state of its own (the
    generator behind [np.random.choice]). *)
Definition lib (S : Type) : Type := S → ∀ c : call, S * option (resp c).

Record outcome (S A : Type) : Type := Outcome {
  calls : list call;
  final : S;
  result : exn + A
}.

Arguments Outcome {S A} calls final result.
Arguments calls {S A} o.
Arguments final {S A} o.
Arguments result {S A} o.

Fixpoint run {S A} (h : lib S) (p : prog A) (s : S) : outcome S A :=
  match p with
  | Ret a => Outcome [] s (inr a)
  | Raise e => Outcome [] s (inl e)
  | Vis c k =>
      match h s c with
      | (s', None) => Outcome [c] s' (inl (LibraryError c))
      | (s', Some r) =>
          let o := run h (k r) s' in
          Outcome (c :: calls o) (final o) (result o)
      end
  end.

(** ** The engine *)

Section SmartABTester.

(** [self.alpha]. *)
Variable alpha : float.

(** [check_srm(self, df, variant_col)], lines 16-28. *)
Definition check_srm (df : frame) : prog (gmap string atom) :=
  let counts := value_counts df in
  let expected := np_repeat (np_mean counts) (length counts) in
  let chi2 :=
    fsum (zip_with (λ c e, fdiv (let d := fsub (of_int c) e in fmul d d) e)
                   counts expected) in
  let* cdf := invoke (chi2_cdf chi2 (len counts - 1)) in
  let pvalue := fsub (Fin 1) cdf in
  Ret (<["srm_detected" := ABool (fltb pvalue alpha)]>
       (<["pvalue" := ANum pvalue]>
       (<["chi2" := ANum chi2]> ∅))).

(** [_check_normality(self, data)], lines 33-39: [data] is rebound to the
    sample drawn when it has more than 5000 observations. *)
Definition _check_normality (data : list float) : prog bool :=
  let* data := (if 5000 <? len data
                then invoke (random_choice data 5000 false)
                else Ret data) in
  let* sp := invoke (shapiro data) in
  Ret (fgtb (snd sp) alpha).

(** The dictionary that each of the three test methods returns for the
    pair [(stat, pvalue)] it gets from its library routine. *)
Definition test_result (name : string) (sp : float * float)
  : gmap string value :=
  <["significant" := VAtom (ABool (fltb (snd sp) alpha))]>
  (<["pvalue" := VAtom (ANum (snd sp))]>
  (<["statistic" := VAtom (ANum (fst sp))]>
  (<["test" := VAtom (AStr name)]> ∅))).

(** [proportion_test(self, control, treatment)], lines 44-56. *)
Definition proportion_test (control treatment : list float)
  : prog (gmap string value) :=
  let successes := [fsum treatment; fsum control] in
  let nobs := [len treatment; len control] in
  let* sp := invoke (proportions_ztest successes nobs) in
  Ret (test_result "Proportion Z-Test" sp).

(** [two_sample_ttest(self, control, treatment)], lines 61-74. *)
Definition two_sample_ttest (control treatment : list float)
  : prog (gmap string value) :=
  let* sp := invoke (ttest_ind treatment control false) in
  Ret (test_result "Two Sample T-Test" sp).

(** [mann_whitney_u_test(self, control, treatment)], lines 79-92. *)
Definition mann_whitney_u_test (control treatment : list float)
  : prog (gmap string value) :=
  let* sp := invoke (mannwhitneyu treatment control "two-sided") in
  Ret (test_result "Mann-Whitney U" sp).

(** [analyze_test(self, df, metric_col, variant_col)], lines 97-125. *)
Definition analyze_test (df : frame) : prog (gmap string value) :=
  let* srm_result := check_srm df in
  let variants := unique_labels df in
  let* v0 := getitem variants 0 in
  let control := arm v0 df in
  let* v1 := getitem variants 1 in
  let treatment := arm v1 df in
  let* result :=
    (if set_le (unique_vals df) [Fin 0; Fin 1] then
       let* result := proportion_test control treatment in
       Ret (<["metric_type" := VAtom (AStr "binary")]> result)
     else
       let* is_normal_control := _check_normality control in
       let* is_normal_treatment := _check_normality treatment in
       if is_normal_control && is_normal_treatment then
         let* result := two_sample_ttest control treatment in
         Ret (<["metric_type" := VAtom (AStr "continuous_normal")]> result)
       else
         let* result := mann_whitney_u_test control treatment in
         Ret (<["metric_type" := VAtom (AStr "continuous_non_normal")]>
              result)) in
  Ret (<["srm" := VDict srm_result]> result).

End SmartABTester.

(** ** Notions for the statements *)

(** [sat P E Q tr p]: after the calls [tr], every call [p] can make
    satisfies [P], every exception [p] raises by itself satisfies [E], and
    every value [p] returns satisfies [Q] together with the calls made up to
    there. *)
Fixpoint sat {A} (P : call → Prop) (E : exn → Prop)
    (Q : list call → A → Prop) (tr : list call) (p : prog A) : Prop :=
  match p with
  | Ret a => Q tr a
  | Raise e => E e
  | Vis c k => P c ∧ ∀ r, sat P E Q (tr ++ [c]) (k r)
  end.

(** Sums of rationals and of integers. *)
Definition Qsum (l : list Q) : Q := foldr Qplus 0%Q l.

Definition Zsum (l : list Z) : Z := foldr Z.add 0 l.

(** ** Pearson's statistic, as the specification words it *)

(** The expected count per variant: the arithmetic mean of the observed
    counts. *)
Definition mean_count (obs : list Z) : Q :=
  (inject_Z (Zsum obs) / inject_Z (len obs))%Q.

(** The sum over the variants of (observed - expected)^2 / expected. *)
Definition pearson (obs : list Z) : Q :=
  let e := mean_count obs in
  Qsum ((λ o, (inject_Z o - e) ^ 2 / e)%Q <$> obs).

(** The statistic as [check_srm] computes it, from an array of counts. *)
Definition chi2_of (counts : list Z) : float :=
  let expected := np_repeat (np_mean counts) (length counts) in
  fsum (zip_with (λ c e, fdiv (let d := fsub (of_int c) e in fmul d d) e)
                 counts expected).

(** Every non-null metric value is 0 or 1. *)
Definition binary_metric (df : frame) : bool :=
  forallb (λ r, isnan (metric r) || feqb (metric r) (Fin 0)
                || feqb (metric r) (Fin 1)) df.

(** The report of [check_srm] for a statistic and the value of its CDF. *)
Definition srm_report (alpha chi2 cdf : float) : gmap string atom :=
  <["srm_detected" := ABool (fltb (fsub (Fin 1) cdf) alpha)]>
  (<["pvalue" := ANum (fsub (Fin 1) cdf)]>
  (<["chi2" := ANum chi2]> ∅)).

(** The one library call of [check_srm]: the CDF at Pearson's statistic of
    the counts per variant, with one degree of freedom less than there are
    variants. *)
Definition srm_call (df : frame) : call :=
  chi2_cdf (Fin (Qred (pearson (first_seen_counts df))))
           (len (unique_labels df) - 1).

(** A library for running the engine on concrete data: it answers [cdf] to
    the chi-square CDF and [sp] to every test, and draws the first [size]
    observations. *)
Definition answering (cdf : float) (sp : float * float) : lib unit :=
  λ s c,
    (s, match c return option (resp c) with
        | chi2_cdf _ _ => Some cdf
        | random_choice a size _ => Some (take (Z.to_nat size) a)
        | _ => Some sp
        end).

(** The calls of the normality sub-check. *)
Definition is_normality_call (c : call) : bool :=
  match c with
  | shapiro _ | random_choice _ _ _ => true
  | _ => false
  end.

(** The calls that run a hypothesis test. *)
Definition is_test_call (c : call) : bool :=
  match c with
  | proportions_ztest _ _ | ttest_ind _ _ _ | mannwhitneyu _ _ _ => true
  | _ => false
  end.

(** The proportion Z-test on two arms, treatment first. *)
Definition ztest_call (control treatment : list float) : call :=
  proportions_ztest
    [fsum treatment; fsum control]
    [len treatment; len control].

(** A test call passes the treatment arm first and the control arm second. *)
Definition treatment_first (control treatment : list float) (c : call)
  : Prop :=
  match c with
  | proportions_ztest count nobs =>
      count = [fsum treatment; fsum control] ∧
      nobs = [len treatment; len control]
  | ttest_ind a b _ | mannwhitneyu a b _ => a = treatment ∧ b = control
  | _ => True
  end.

(** The test for a continuous metric: Welch's t-test when both arms pass
    the normality sub-check, the Mann-Whitney U test otherwise. *)
Definition chosen_test (nc nt : bool) (control treatment : list float)
  : call :=
  if nc && nt then ttest_ind treatment control false
  else mannwhitneyu treatment control "two-sided".

(** Its name in the verdict, and the metric type that goes with it. *)
Definition chosen_name (nc nt : bool) : string :=
  if nc && nt then "Two Sample T-Test" else "Mann-Whitney U".

Definition chosen_type (nc nt : bool) : string :=
  if nc && nt then "continuous_normal" else "continuous_non_normal".

(** The entry of a verdict under a key, when it is a string. *)
Definition field (v : gmap string value) (k : string) : option string :=
  match v !! k with
  | Some (VAtom (AStr s)) => Some s
  | _ => None
  end.

(** The keys of a verdict and of the nested integrity record. *)
Definition verdict_keys : gset string :=
  {[ "test"; "statistic"; "pvalue"; "significant"; "metric_type"; "srm" ]}.

Definition srm_keys : gset string :=
  {[ "chi2"; "pvalue"; "srm_detected" ]}.

(** Sample frames: one row of "A" and two of "B", in two orders of
    appearance; a single variant; a continuous metric with a null; three
    variants, the third one with values other than 0 and 1. *)
Definition one_two : frame :=
  [Row "A" (Fin 1); Row "B" (Fin 0); Row "B" (Fin 1)].

Definition two_one : frame :=
  [Row "B" (Fin 0); Row "A" (Fin 1); Row "B" (Fin 1)].

Definition lone_variant : frame :=
  [Row "A" (Fin 1); Row "A" (Fin 0)].

Definition continuous_pair : frame :=
  [Row "A" (Fin (3 # 2)); Row "B" (Fin (5 # 2)); Row "A" (Fin 2);
   Row "B" NaN; Row "B" (Fin 4); Row "A" (Fin 1)].

Definition three_variants : frame :=
  [Row "A" (Fin 1); Row "B" (Fin 0); Row "C" (Fin (5 # 2));
   Row "A" (Fin 0); Row "B" (Fin 1); Row "C" (Fin 7)].

(** A call agrees with the classification: the proportion Z-test belongs to
    a binary metric, the normality sub-check and the two tests on
    continuous data to any other. *)
Definition test_kind_matches (binary : bool) (c : call) : Prop :=
  match c with
  | chi2_cdf _ _ => True
  | proportions_ztest _ _ => binary = true
  | _ => binary = false
  end.

(** The calls made end with a hypothesis test. *)
Definition ends_with_test (tr : list call) : Prop :=
  ∃ x, last tr = Some x ∧ is_test_call x = true.

(** The run of the Shapiro-Wilk test on [x] after the calls [pre], and the
    answer of the normality sub-check: whether the p-value exceeds
    [alpha]. *)
Definition shapiro_outcome {S} (h : lib S) (alpha : float)
    (pre : list call) (x : list float) (s : S) : outcome S bool :=
  match h s (shapiro x) with
  | (s', Some sp) => Outcome (pre ++ [shapiro x]) s' (inr (fgtb (snd sp) alpha))
  | (s', None) =>
      Outcome (pre ++ [shapiro x]) s' (inl (LibraryError (shapiro x)))
  end.

(** [inv I tr p]: after the calls [tr], the calls made by [p] keep [I] at
    every step. *)
Fixpoint inv {A} (I : list call → Prop) (tr : list call) (p : prog A)
  : Prop :=
  match p with
  | Vis c k => I (tr ++ [c]) ∧ ∀ r, inv I (tr ++ [c]) (k r)
  | _ => True
  end.

(** At most the last call of a run is a hypothesis test. *)
Definition test_only_last (tr : list call) : Prop :=
  Forall (λ c, is_test_call c = false) (removelast tr).

(** A verdict is consistent: [significant] is [pvalue < alpha], the test
    and the metric type go together, and the nested integrity record flags
    a mismatch when its own p-value is below [alpha]. *)
Definition consistent (alpha : float) (v : gmap string value) : Prop :=
  (∃ p, v !! "pvalue" = Some (VAtom (ANum p)) ∧
        v !! "significant" = Some (VAtom (ABool (fltb p alpha)))) ∧
  (field v "test", field v "metric_type")
    ∈ [(Some "Proportion Z-Test", Some "binary");
       (Some "Two Sample T-Test", Some "continuous_normal");
       (Some "Mann-Whitney U", Some "continuous_non_normal")] ∧
  (∃ d q, v !! "srm" = Some (VDict d) ∧
          d !! "pvalue" = Some (ANum q) ∧
          d !! "srm_detected" = Some (ABool (fltb q alpha))).

(** The samples of a test on continuous data hold no NaN. *)
Definition samples_not_null (c : call) : Prop :=
  match c with
  | ttest_ind a b _ | mannwhitneyu a b _ =>
      Forall (λ x, isnan x = false) a ∧ Forall (λ x, isnan x = false) b
  | _ => True
  end.

(** The successes of a proportion Z-test are whole numbers between zero
    and the observations of their arm. *)
Definition counts_in_range (c : call) : Prop :=
  match c with
  | proportions_ztest count nobs =>
      ∃ kt kc nt nc,
        count = [of_int kt; of_int kc] ∧ nobs = [nt; nc] ∧
        0 ≤ kt ≤ nt ∧ 0 ≤ kc ≤ nc
  | _ => True
  end.

(** The calls of a run keep to the engine's order: the integrity check
    first, six calls at most, and a hypothesis test only as the last one. *)
Definition disciplined (first : call) (tr : list call) : Prop :=
  head tr = Some first ∧ (length tr ≤ 6)%nat ∧ test_only_last tr.

(** ** The integrity checker over rounded arithmetic

    The floats above compute without rounding.  The statistic and the
    p-value of [check_srm] are doubles, so the function is modelled a second
    time over an arithmetic that rounds: [rnd] takes the exact result of an
    operation to the double that stands for it (or to an infinity), and
    [vsum] and [vmean] are numpy's [sum] and [mean], whose order of
    additions is numpy's own.  [check_srm] is the instance that does not
    round. *)

Section Rounded.

Variable rnd : Q → float.
Variable vsum : list float → float.
Variable vmean : list Z → float.

Definition rsub (a b : float) : float :=
  match a, b with
  | NaN, _ | _, NaN => NaN
  | Fin x, Fin y => rnd (x - y)%Q
  | PInf, PInf | NInf, NInf => NaN
  | PInf, _ | _, NInf => PInf
  | NInf, _ | _, PInf => NInf
  end.

Definition rmul (a b : float) : float :=
  match a, b with
  | NaN, _ | _, NaN => NaN
  | Fin x, Fin y => rnd (x * y)%Q
  | _, _ => inf_of_sign (fsign a * fsign b)
  end.

Definition rdiv (a b : float) : float :=
  match a, b with
  | NaN, _ | _, NaN => NaN
  | Fin x, Fin y =>
      if Qeq_bool y 0 then inf_of_sign (Qsgn x) else rnd (x / y)%Q
  | Fin _, _ => Fin 0
  | _, Fin y => if Qeq_bool y 0 then a else inf_of_sign (fsign a * Qsgn y)
  | _, _ => NaN
  end.

(** The conversion of an integer to a double. *)
Definition rof_int (z : Z) : float := rnd (inject_Z z).

Variable alpha : float.

(** [check_srm(self, df, variant_col)], lines 16-28, over the rounded
    arithmetic. *)
Definition check_srm_with (df : frame) : prog (gmap string atom) :=
  let counts := value_counts df in
  let expected := np_repeat (vmean counts) (length counts) in
  let chi2 :=
    vsum (zip_with (λ c e, rdiv (let d := rsub (rof_int c) e in rmul d d) e)
                   counts expected) in
  let* cdf := invoke (chi2_cdf chi2 (len counts - 1)) in
  let pvalue := rsub (Fin 1) cdf in
  Ret (<["srm_detected" := ABool (fltb pvalue alpha)]>
       (<["pvalue" := ANum pvalue]>
       (<["chi2" := ANum chi2]> ∅))).

(** Pearson's statistic as the specification words it, in the rounded
    arithmetic: the expected count is the mean of the observed counts, and
    the statistic is the sum over the variants of
    (observed - expected)^2 / expected. *)
Definition pearson_with (observed : list Z) : float :=
  let expected := vmean observed in
  vsum ((λ o, rdiv (let d := rsub (rof_int o) expected in rmul d d) expected)
          <$> observed).

End Rounded.

(** Addition in a rounded arithmetic. *)
Definition radd (rnd : Q → float) (a b : float) : float :=
  match a, b with
  | NaN, _ | _, NaN => NaN
  | Fin x, Fin y => rnd (x + y)%Q
  | PInf, NInf | NInf, PInf => NaN
  | PInf, _ | _, PInf => PInf
  | NInf, _ | _, NInf => NInf
  end.

(** The arithmetic that does not round. *)
Definition exact (q : Q) : float := Fin (Qred q).

(** Binary64, round to nearest, ties to even: [x] lies between 2^e and
    2^(e+1), the unit in the last place is 2^p with p = max e (-1022) - 52,
    and [x] goes to the nearest multiple of it; from 2^1024 on the result
    is an infinity. *)
Definition round64 (x : Q) : float :=
  let n := Qnum x in
  let d := Zpos (Qden x) in
  if n =? 0 then Fin 0 else
  let a := Z.abs n in
  let e0 := Z.log2 a - Z.log2 d in
  let above := if 0 <=? e0 then d * 2 ^ e0 <=? a else d <=? a * 2 ^ (- e0) in
  let e := if above then e0 else e0 - 1 in
  let p := Z.max e (-1022) - 52 in
  let num := if 0 <=? p then a else a * 2 ^ (- p) in
  let den := if 0 <=? p then d * 2 ^ p else d in
  let q := num / den in
  let r := num mod den in
  let m := if 2 * r <? den then q
           else if den <? 2 * r then q + 1
           else if Z.even q then q else q + 1 in
  if (971 <? p) || ((p =? 971) && (m =? 2 ^ 53)) then
    (if 0 <? n then PInf else NInf)
  else
    let v := if 0 <=? p then inject_Z (m * 2 ^ p)
             else Qmake m (Z.to_pos (2 ^ (- p))) in
    Fin (Qred (if 0 <? n then v else - v)).

(** A sum that adds from left to right, and the mean as the sum of the
    converted counts over their number, in binary64. *)
Definition sum64 (l : list float) : float := foldl (radd round64) (Fin 0) l.

Definition mean64 (l : list Z) : float :=
  rdiv round64 (sum64 (rof_int round64 <$> l)) (rof_int round64 (len l)).

(** ** Answered calls *)

(** What a library answers to a call. *)
Inductive answer : Type :=
| ACdf (x : float)
| ASample (l : list float)
| AStat (sp : float * float).

Definition to_answer (c : call) : resp c → answer :=
  match c with
  | chi2_cdf _ _ => ACdf
  | random_choice _ _ _ => ASample
  | shapiro _ => AStat
  | proportions_ztest _ _ => AStat
  | ttest_ind _ _ _ => AStat
  | mannwhitneyu _ _ _ => AStat
  end.

(** The calls of a run that the library answered, with the answers. *)
Fixpoint transcript {S A} (h : lib S) (p : prog A) (s : S)
  : list (call * answer) :=
  match p with
  | Vis c k =>
      match h s c with
      | (s', Some r) => (c, to_answer c r) :: transcript h (k r) s'
      | (_, None) => []
      end
  | _ => []
  end.

(** [satl E Q lg p]: after the answered calls [lg], every exception [p]
    raises by itself satisfies [E], and every value [p] returns satisfies
    [Q] together with the answered calls up to there. *)
Fixpoint satl {A} (E : exn → Prop) (Q : list (call * answer) → A → Prop)
    (lg : list (call * answer)) (p : prog A) : Prop :=
  match p with
  | Ret a => Q lg a
  | Raise e => E e
  | Vis c k => ∀ r, satl E Q (lg ++ [(c, to_answer c r)]) (k r)
  end.

(** The verdict comes from a test called with the treatment arm first: the
    last answered call is such a test, and the verdict's statistic and
    p-value are the answer to it. *)
Definition verdict_of_test (control treatment : list float)
    (lg : list (call * answer)) (v : gmap string value) : Prop :=
  ∃ x sp,
    last lg = Some (x, AStat sp) ∧
    is_test_call x = true ∧
    treatment_first control treatment x ∧
    v !! "statistic" = Some (VAtom (ANum (fst sp))) ∧
    v !! "pvalue" = Some (VAtom (ANum (snd sp))).

(** ** Running programs *)

Section Run.
Context {S : Type} (h : lib S).

Lemma run_bind {A B} (p : prog A) (f : A → prog B) (s : S) :
  run h (bind p f) s =
  match result (run h p s) with
  | inl e => Outcome (calls (run h p s)) (final (run h p s)) (inl e)
  | inr a =>
      let o := run h (f a) (final (run h p s)) in
      Outcome (calls (run h p s) ++ calls o) (final o) (result o)
  end.
Proof.
  revert s. induction p as [a|e|c k IH]; intros s; simpl.
  - by destruct (run h (f a) s).
  - done.
  - destruct (h s c) as [s' [r|]]; simpl; [|done].
    rewrite IH. by destruct (result (run h (k r) s')).
Qed.

End Run.

(** A run of a program that satisfies [sat P E Q]: the calls made satisfy
    [P]; the run returns a value that satisfies [Q] with the calls made, or
    stops at an exception of the program that satisfies [E], or at the
    exception of the library call made last. *)
Lemma sat_run {S A} P E (Q : list call → A → Prop) (h : lib S) tr p s :
  sat P E Q tr p →
  Forall P (calls (run h p s)) ∧
  match result (run h p s) with
  | inr a => Q (tr ++ calls (run h p s)) a
  | inl e => E e ∨ ∃ c, e = LibraryError c ∧ last (calls (run h p s)) = Some c
  end.
Proof.
  revert tr s. induction p as [a|e|c k IH]; intros tr s Hp; simpl in *.
  - split; [done|]. by rewrite app_nil_r.
  - split; [done|]. by left.
  - destruct Hp as [Hc Hk]. destruct (h s c) as [s' [r|]].
    + destruct (IH r (tr ++ [c]) s' (Hk r)) as [Hcalls Hres]. split; simpl.
      * by constructor.
      * destruct (result (run h (k r) s')) as [e|a].
        -- destruct Hres as [He|(c' & -> & Hlast)]; [by left|right].
           exists c'. split; [done|].
           by destruct (calls (run h (k r) s')).
        -- by rewrite <-app_assoc in Hres.
    + split; simpl; [by repeat constructor|]. right. by exists c.
Qed.

(** ** Exact float arithmetic *)

Lemma Qred_inject_Z (z : Z) : Qred (inject_Z z) = inject_Z z.
Proof. apply Qred_identity. simpl. apply Z.gcd_1_r. Qed.

Lemma Qred_Qeq (x y : Q) : (x == y)%Q → Qred x = Qred y.
Proof. apply Qred_complete. Qed.

Lemma fadd_Fin (x y : Q) :
  fadd (Fin (Qred x)) (Fin (Qred y)) = Fin (Qred (x + y)).
Proof. simpl. f_equal. apply Qred_Qeq. by rewrite !Qred_correct. Qed.

Lemma Qeq_bool_false (x : Q) : ¬ (x == 0)%Q → Qeq_bool x 0 = false.
Proof.
  intros Hx. destruct (Qeq_bool x 0) eqn:E; [|done].
  by apply Qeq_bool_iff in E.
Qed.

(** One term of the statistic, [(c - e) ** 2 / e], for a non-zero [e]. *)
Lemma term_Fin (c : Z) (e : Q) :
  ¬ (e == 0)%Q →
  fdiv (let d := fsub (of_int c) (Fin (Qred e)) in fmul d d) (Fin (Qred e))
  = Fin (Qred ((inject_Z c - e) ^ 2 / e)%Q).
Proof.
  intros He. cbn -[Qred Qeq_bool Qdiv Qmult Qminus Qpower].
  rewrite Qeq_bool_false by by rewrite Qred_correct.
  f_equal. apply Qred_Qeq. rewrite !Qred_correct. simpl. reflexivity.
Qed.

Lemma fsum_Fin {A} (g : A → Q) (l : list A) :
  fsum ((λ a, Fin (Qred (g a))) <$> l) = Fin (Qred (Qsum (g <$> l))).
Proof.
  induction l as [|a l IH]; [done|].
  unfold fsum in *. cbn [fmap list_fmap foldr]. rewrite IH.
  apply fadd_Fin.
Qed.

Lemma Qsum_Permutation (l1 l2 : list Q) :
  l1 ≡ₚ l2 → (Qsum l1 == Qsum l2)%Q.
Proof.
  induction 1 as [|x l1 l2 _ IH|x y l|l1 l2 l3 _ IH1 _ IH2]; simpl.
  - reflexivity.
  - by rewrite IH.
  - ring.
  - by rewrite IH1.
Qed.

Lemma Zsum_Permutation (l1 l2 : list Z) : l1 ≡ₚ l2 → Zsum l1 = Zsum l2.
Proof.
  induction 1 as [|x l1 l2 _ IH|x y l|l1 l2 l3 _ IH1 _ IH2]; simpl; lia.
Qed.

Lemma Zsum_pos (l : list Z) : Forall (λ c, 0 < c) l → l ≠ [] → 0 < Zsum l.
Proof.
  intros Hl Hne. destruct Hl as [|c l Hc Hl]; [done|]. simpl.
  assert (0 ≤ Zsum l); [|lia].
  clear Hne. induction Hl; simpl; lia.
Qed.

Lemma mean_count_nonzero (obs : list Z) :
  Forall (λ c, 0 < c) obs → obs ≠ [] → ¬ (mean_count obs == 0)%Q.
Proof.
  intros Hpos Hne. unfold mean_count.
  pose proof (Zsum_pos obs Hpos Hne) as Hs.
  assert (0 < len obs) as Hn by (destruct obs; [done|unfold len; simpl; lia]).
  assert (0 < mean_count obs)%Q as Hlt.
  { apply Qlt_shift_div_l; [unfold Qlt; simpl; lia|].
    rewrite Qmult_0_l. unfold Qlt. simpl. lia. }
  intros H0. rewrite H0 in Hlt. by apply Qlt_irrefl in Hlt.
Qed.

Lemma np_mean_Fin (obs : list Z) :
  obs ≠ [] → np_mean obs = Fin (Qred (mean_count obs)).
Proof.
  intros Hne. unfold np_mean, of_int, fdiv, mean_count, Zsum.
  rewrite Qeq_bool_false; [done|].
  unfold Qeq, len. simpl. destruct obs; [done|simpl; lia].
Qed.

Lemma zip_with_replicate {A B C} (f : A → B → C) (l : list A) (b : B) :
  zip_with f l (replicate (length l) b) = (λ a, f a b) <$> l.
Proof. induction l as [|a l IH]; [done|]. simpl. by rewrite IH. Qed.

Lemma chi2_of_pearson (counts : list Z) :
  Forall (λ c, 0 < c) counts →
  chi2_of counts = Fin (Qred (pearson counts)).
Proof.
  intros Hpos. destruct (decide (counts = [])) as [->|Hne]; [done|].
  unfold chi2_of, np_repeat, pearson. cbv zeta.
  rewrite zip_with_replicate, np_mean_Fin by done.
  rewrite <-(fsum_Fin (λ o, (inject_Z o - mean_count counts) ^ 2
                              / mean_count counts)%Q).
  f_equal. apply list_fmap_ext. intros _ c _.
  apply term_Fin. by apply mean_count_nonzero.
Qed.

Lemma pearson_Permutation (l1 l2 : list Z) :
  l1 ≡ₚ l2 → (pearson l1 == pearson l2)%Q.
Proof.
  intros Hp. unfold pearson, mean_count.
  unfold len. rewrite (Zsum_Permutation _ _ Hp), (Permutation_length Hp).
  apply Qsum_Permutation. by apply fmap_Permutation.
Qed.

(** ** Facts about frames *)

Lemma unique_labels_In (df : frame) (v : string) :
  In v (unique_labels df) ↔ ∃ r, In r df ∧ variant r = v.
Proof.
  unfold unique_labels. induction df as [|r df IH]; simpl.
  - split; [done|]. by intros (? & [] & _).
  - split.
    + intros [<-|Hv]; [by exists r; auto|].
      apply filter_In in Hv as [Hv _]. apply IH in Hv as (r' & ? & ?).
      exists r'. auto.
    + intros (r' & [->|Hr'] & <-); [by left|].
      destruct (String.eqb (variant r) (variant r')) eqn:E.
      * apply String.eqb_eq in E. by left.
      * right. apply filter_In. split; [|by rewrite E].
        apply IH. by exists r'.
Qed.

Lemma unique_labels_NoDup (df : frame) : NoDup (unique_labels df).
Proof.
  unfold unique_labels. induction df as [|r df IH]; simpl; constructor.
  - rewrite list_elem_of_In, filter_In, String.eqb_refl. by intros [_ ?].
  - by apply NoDup_ListNoDup, List.NoDup_filter, NoDup_ListNoDup.
Qed.

Lemma rows_of_length_pos (df : frame) (v : string) :
  In v (unique_labels df) → (0 < length (rows_of v df))%nat.
Proof.
  intros (r & Hr & Hv)%unique_labels_In.
  assert (In r (rows_of v df)) as Hin.
  { apply filter_In. split; [done|]. by apply String.eqb_eq. }
  destruct (rows_of v df); [done|simpl; lia].
Qed.

Lemma first_seen_counts_pos (df : frame) :
  Forall (λ c, 0 < c) (first_seen_counts df).
Proof.
  unfold first_seen_counts. apply Forall_fmap, Forall_forall.
  intros v Hv%list_elem_of_In%rows_of_length_pos. simpl. lia.
Qed.

Lemma first_seen_counts_length (df : frame) :
  length (first_seen_counts df) = length (unique_labels df).
Proof. unfold first_seen_counts. by rewrite length_fmap. Qed.

Lemma value_counts_Permutation (df : frame) :
  value_counts df ≡ₚ first_seen_counts df.
Proof. apply merge_sort_Permutation. Qed.

Lemma value_counts_length (df : frame) :
  length (value_counts df) = length (unique_labels df).
Proof.
  by rewrite (Permutation_length (value_counts_Permutation df)),
    first_seen_counts_length.
Qed.

#[local] Instance flip_Zle_total : Total (flip Z.le).
Proof. intros x y. unfold flip. lia. Qed.

#[local] Instance flip_Zle_antisymm : AntiSymm (=) (flip Z.le).
Proof. intros x y. unfold flip. lia. Qed.

#[local] Instance flip_Zle_trans : Transitive (flip Z.le).
Proof. intros x y z. unfold flip. lia. Qed.

(** The array of counts depends on the counts only, not on the order in
    which the labels appear. *)
Lemma value_counts_canonical (df1 df2 : frame) :
  first_seen_counts df1 ≡ₚ first_seen_counts df2 →
  value_counts df1 = value_counts df2.
Proof.
  intros Hp. apply (Sorted_unique (flip Z.le)).
  - apply Sorted_merge_sort, _.
  - apply Sorted_merge_sort, _.
  - by rewrite !value_counts_Permutation.
Qed.

Lemma rows_of_Permutation (df1 df2 : frame) (v : string) :
  df1 ≡ₚ df2 → rows_of v df1 ≡ₚ rows_of v df2.
Proof.
  unfold rows_of.
  induction 1 as [|x l1 l2 _ IH|x y l|l1 l2 l3 _ IH1 _ IH2]; simpl.
  - done.
  - destruct (String.eqb (variant x) v); by rewrite IH.
  - destruct (String.eqb (variant x) v), (String.eqb (variant y) v);
      by try apply perm_swap.
  - by rewrite IH1.
Qed.

(** Reordering the rows permutes the counts per label. *)
Lemma first_seen_counts_Permutation (df1 df2 : frame) :
  df1 ≡ₚ df2 → first_seen_counts df1 ≡ₚ first_seen_counts df2.
Proof.
  intros Hp. unfold first_seen_counts.
  rewrite (list_fmap_ext _ (λ v, Z.of_nat (length (rows_of v df2)))
             (unique_labels df1)).
  - apply fmap_Permutation, NoDup_Permutation; [apply unique_labels_NoDup..|].
    intros v. rewrite !list_elem_of_In, !unique_labels_In.
    split; intros (r & Hr & Hv); exists r; split; try done.
    + rewrite <-list_elem_of_In in *. by rewrite <-Hp.
    + rewrite <-list_elem_of_In in *. by rewrite Hp.
  - intros _ v _. simpl.
    by rewrite (Permutation_length (rows_of_Permutation _ _ v Hp)).
Qed.

Lemma chi2_of_value_counts (df : frame) :
  chi2_of (value_counts df) = Fin (Qred (pearson (first_seen_counts df))).
Proof.
  rewrite chi2_of_pearson.
  - f_equal. apply Qred_Qeq, pearson_Permutation, value_counts_Permutation.
  - rewrite value_counts_Permutation. apply first_seen_counts_pos.
Qed.

(** ** The metric classifier *)

Lemma feqb_compat (x y c : float) : feqb x y = true → feqb x c = feqb y c.
Proof.
  destruct x as [x| | |], y as [y| | |], c as [c| | |]; simpl; try done.
  intros Hxy%Qeq_bool_iff.
  destruct (Qeq_bool x c) eqn:E1, (Qeq_bool y c) eqn:E2; try done.
  - apply Qeq_bool_iff in E1. rewrite Hxy in E1.
    apply Qeq_bool_iff in E1. congruence.
  - apply Qeq_bool_iff in E2. rewrite <-Hxy in E2.
    apply Qeq_bool_iff in E2. congruence.
Qed.

Lemma forallb_unique_by {A} (eqb : A → A → bool) (P : A → bool) (l : list A) :
  (∀ x y, eqb x y = true → P x = P y) →
  forallb P (unique_by eqb l) = forallb P l.
Proof.
  intros Hcompat. induction l as [|x l IH]; [done|]. simpl.
  rewrite <-IH. generalize (unique_by eqb l). intros U.
  induction U as [|y U IHU]; [done|]. simpl.
  destruct (eqb x y) eqn:E; simpl.
  - rewrite IHU, <-(Hcompat x y E). by destruct (P x).
  - destruct (P x), (P y); simpl in *; try done.
Qed.

Lemma set_le_unique_vals (df : frame) :
  set_le (unique_vals df) [Fin 0; Fin 1] = binary_metric df.
Proof.
  unfold set_le, unique_vals, binary_metric.
  rewrite forallb_unique_by.
  - induction df as [|r df IH]; [done|]. simpl.
    destruct (metric r); simpl; try done;
      try (f_equal; [by rewrite ?orb_false_r|exact IH]); exact IH.
  - intros x y Hxy. simpl.
    by rewrite (feqb_compat x y (Fin 0)), (feqb_compat x y (Fin 1)).
Qed.

(** ** The integrity checker *)

Lemma check_srm_tree (alpha : float) (df : frame) :
  check_srm alpha df =
  Vis (srm_call df)
      (λ cdf, Ret (srm_report alpha
                     (Fin (Qred (pearson (first_seen_counts df)))) cdf)).
Proof.
  unfold srm_call, len.
  rewrite <-chi2_of_value_counts, <-value_counts_length.
  reflexivity.
Qed.

Lemma check_srm_run {S} (h : lib S) (alpha : float) (df : frame) (s : S) :
  run h (check_srm alpha df) s =
  match h s (srm_call df) with
  | (s1, Some cdf) =>
      Outcome [srm_call df] s1
        (inr (srm_report alpha
                (Fin (Qred (pearson (first_seen_counts df)))) cdf))
  | (s1, None) => Outcome [srm_call df] s1 (inl (LibraryError (srm_call df)))
  end.
Proof. rewrite check_srm_tree. simpl. by destruct (h s (srm_call df)) as [s1 [cdf|]]. Qed.

Lemma srm_report_dom (alpha chi2 cdf : float) :
  dom (srm_report alpha chi2 cdf)
  = ({["chi2"; "pvalue"; "srm_detected"]} : gset string).
Proof. unfold srm_report. rewrite !dom_insert_L. set_solver. Qed.

(** C4: [check_srm] is symmetric in the order of the variants: two frames
    whose counts per variant are permutations of each other get the same
    program, hence the same [chi2], [pvalue] and [srm_detected] from every
    library. *)
Theorem check_srm_permutation (alpha : float) (df1 df2 : frame) :
  first_seen_counts df1 ≡ₚ first_seen_counts df2 →
  check_srm alpha df1 = check_srm alpha df2.
Proof.
  intros Hp. unfold check_srm.
  by rewrite (value_counts_canonical df1 df2 Hp).
Qed.

(** ** The decision engine *)

(** With two labels in the frame, [analyze_test] is the integrity check
    followed by classification and the test on the arms of the first two
    labels. *)
Lemma analyze_test_tree (alpha : float) (df : frame) (c t : string)
    (rest : list string) :
  unique_labels df = c :: t :: rest →
  analyze_test alpha df =
  (let* srm_result := check_srm alpha df in
   let* result :=
     (if binary_metric df then
        let* result := proportion_test alpha (arm c df) (arm t df) in
        Ret (<["metric_type" := VAtom (AStr "binary")]> result)
      else
        let* nc := _check_normality alpha (arm c df) in
        let* nt := _check_normality alpha (arm t df) in
        if nc && nt then
          let* result := two_sample_ttest alpha (arm c df) (arm t df) in
          Ret (<["metric_type" := VAtom (AStr "continuous_normal")]> result)
        else
          let* result := mann_whitney_u_test alpha (arm c df) (arm t df) in
          Ret (<["metric_type" := VAtom (AStr "continuous_non_normal")]>
               result)) in
   Ret (<["srm" := VDict srm_result]> result)).
Proof.
  intros Hv. unfold analyze_test. rewrite Hv, set_le_unique_vals. reflexivity.
Qed.

(** C5: on a frame with fewer than two distinct variant labels
    [analyze_test] ends in an error and returns no verdict: after the
    integrity check's call it raises the IndexError of indexing past the
    labels present (or the library's exception, when that call raised). *)
Theorem too_few_variants_error {S} (h : lib S) (alpha : float) (df : frame)
    (s : S) :
  (length (unique_labels df) < 2)%nat →
  let n := length (unique_labels df) in
  let o := run h (analyze_test alpha df) s in
  calls o = [srm_call df] ∧
  result o = match snd (h s (srm_call df)) with
             | Some _ => inl (IndexError n n)
             | None => inl (LibraryError (srm_call df))
             end.
Proof.
  intros Hn. cbv zeta. unfold analyze_test.
  rewrite run_bind, check_srm_run.
  destruct (h s (srm_call df)) as [s1 [cdf|]]; [|done].
  destruct (unique_labels df) as [|c [|t rest]]; simpl in *; [done..|lia].
Qed.

(** On [lone_variant], indexing the second label fails. *)
Lemma too_few_variants_error_witness :
  result (run (answering (Fin (1 # 2)) (NaN, NaN))
            (analyze_test (Fin (1 # 20)) lone_variant) ())
  = inl (IndexError 1 1).
Proof.
  apply (too_few_variants_error (answering (Fin (1 # 2)) (NaN, NaN))
           (Fin (1 # 20)) lone_variant ()).
  vm_compute. lia.
Defined.

(** On a binary metric, with two labels, a run in which the chi-square CDF
    and the Z-test answer returns the Z-test's answer, tagged "binary", with
    the integrity record under srm. *)
Lemma analyze_test_binary_run {S} (h : lib S) (alpha : float) (df : frame)
    (s s1 s2 : S) (c t : string) (rest : list string) (cdf : float)
    (sp : float * float) :
  unique_labels df = c :: t :: rest →
  binary_metric df = true →
  h s (srm_call df) = (s1, Some cdf) →
  h s1 (ztest_call (arm c df) (arm t df)) = (s2, Some sp) →
  run h (analyze_test alpha df) s =
  Outcome [srm_call df; ztest_call (arm c df) (arm t df)] s2
    (inr (<["srm" := VDict (srm_report alpha
                              (Fin (Qred (pearson (first_seen_counts df))))
                              cdf)]>
          (<["metric_type" := VAtom (AStr "binary")]>
          (test_result alpha "Proportion Z-Test" sp)))).
Proof.
  intros Hlabels Hbin Hcdf Hz.
  rewrite (analyze_test_tree _ _ _ _ _ Hlabels), Hbin.
  rewrite run_bind, check_srm_run, Hcdf.
  unfold ztest_call in *. cbn [calls final result].
  unfold proportion_test. cbn [run bind invoke]. by rewrite Hz.
Qed.

(** C1: on a frame whose non-null metric values all are 0 or 1,
    [analyze_test] never calls the normality sub-check, whatever the sample
    sizes, and every verdict it returns names the proportion Z-test and the
    metric type "binary"; with two labels in the frame the one call after
    the integrity check is the Z-test, and its answer is the verdict. *)
Theorem binary_metric_dispatch {S} (h : lib S) (alpha : float) (df : frame)
    (s : S) :
  binary_metric df = true →
  let o := run h (analyze_test alpha df) s in
  Forall (λ c, is_normality_call c = false) (calls o) ∧
  (∀ v, result o = inr v →
        field v "test" = Some "Proportion Z-Test" ∧
        field v "metric_type" = Some "binary") ∧
  (∀ c t rest s1 cdf,
     unique_labels df = c :: t :: rest →
     h s (srm_call df) = (s1, Some cdf) →
     let z := ztest_call (arm c df) (arm t df) in
     calls o = [srm_call df; z] ∧
     match snd (h s1 z) with
     | Some sp =>
         ∃ v, result o = inr v ∧
              v !! "statistic" = Some (VAtom (ANum (fst sp))) ∧
              v !! "pvalue" = Some (VAtom (ANum (snd sp)))
     | None => result o = inl (LibraryError z)
     end).
Proof.
  intros Hbin. cbv zeta.
  assert (sat (λ c, is_normality_call c = false) (λ _, True)
            (λ _ v, field v "test" = Some "Proportion Z-Test" ∧
                    field v "metric_type" = Some "binary")
            [] (analyze_test alpha df)) as Hsat.
  { unfold analyze_test.
    rewrite set_le_unique_vals, Hbin, check_srm_tree.
    destruct (unique_labels df) as [|c [|t rest]]; simpl; auto. }
  destruct (sat_run _ _ _ h _ _ s Hsat) as [Hcalls Hres].
  split; [done|]. split.
  - intros v Hv. by rewrite Hv in Hres.
  - intros c t rest s1 cdf Hlabels Hcdf.
    rewrite (analyze_test_tree _ _ _ _ _ Hlabels), Hbin.
    rewrite run_bind, check_srm_run, Hcdf. unfold ztest_call. simpl.
    destruct (h s1 (proportions_ztest _ _)) as [s2 [sp|]]; simpl; [|done].
    split; [done|]. eexists. split; [done|]. done.
Qed.

(** On [one_two], a binary metric, no normality call is made. *)
Lemma binary_metric_dispatch_witness :
  Forall (λ c, is_normality_call c = false)
    (calls (run (answering (Fin (1 # 2)) (NaN, NaN))
              (analyze_test (Fin (1 # 20)) one_two) ())).
Proof.
  apply (binary_metric_dispatch (answering (Fin (1 # 2)) (NaN, NaN))
           (Fin (1 # 20)) one_two ()).
  reflexivity.
Defined.

(** C2: on a frame with a non-null metric value other than 0 and 1,
    [analyze_test] runs the normality sub-check on the control arm and then
    on the treatment arm; when both answer true the one call that follows
    is Welch's t-test and the verdict has metric type "continuous_normal",
    and when either answers false it is the Mann-Whitney U test and the
    metric type is "continuous_non_normal". *)
Theorem continuous_dispatch {S} (h : lib S) (alpha : float) (df : frame)
    (s : S) (c t : string) (rest : list string) (srm : gmap string atom)
    (nc nt : bool) :
  binary_metric df = false →
  unique_labels df = c :: t :: rest →
  let o0 := run h (check_srm alpha df) s in
  result o0 = inr srm →
  let o1 := run h (_check_normality alpha (arm c df)) (final o0) in
  result o1 = inr nc →
  let o2 := run h (_check_normality alpha (arm t df)) (final o1) in
  result o2 = inr nt →
  let x := chosen_test nc nt (arm c df) (arm t df) in
  let o := run h (analyze_test alpha df) s in
  calls o = calls o0 ++ calls o1 ++ calls o2 ++ [x] ∧
  match snd (h (final o2) x) with
  | Some _ =>
      ∃ v, result o = inr v ∧
           field v "test" = Some (chosen_name nc nt) ∧
           field v "metric_type" = Some (chosen_type nc nt)
  | None => result o = inl (LibraryError x)
  end.
Proof.
  intros Hbin Hlabels. cbv zeta.
  rewrite (analyze_test_tree _ _ _ _ _ Hlabels), Hbin, run_bind.
  destruct (run h (check_srm alpha df) s) as [tr0 s1 r0].
  cbn [calls final result]. intros ->. rewrite 2!run_bind.
  destruct (run h (_check_normality alpha (arm c df)) s1) as [tr1 s2 r1].
  cbn [calls final result]. intros ->. rewrite run_bind.
  destruct (run h (_check_normality alpha (arm t df)) s2) as [tr2 s3 r2].
  cbn [calls final result]. intros ->.
  unfold chosen_test, chosen_name, chosen_type.
  destruct (nc && nt);
    cbn [run bind invoke two_sample_ttest mann_whitney_u_test].
  - destruct (h _ (ttest_ind _ _ _)) as [s4 [sp|]];
      cbn [calls final result snd]; rewrite ?app_nil_r;
      (split; [reflexivity|]); [|reflexivity].
    eexists. split; [reflexivity|]. split; vm_compute; reflexivity.
  - destruct (h _ (mannwhitneyu _ _ _)) as [s4 [sp|]];
      cbn [calls final result snd]; rewrite ?app_nil_r;
      (split; [reflexivity|]); [|reflexivity].
    eexists. split; [reflexivity|]. split; vm_compute; reflexivity.
Qed.

(** On [continuous_pair], with p-values of one half throughout, both arms
    pass the normality sub-check and Welch's t-test is taken. *)
Lemma continuous_dispatch_witness :
  ∃ v, result (run (answering (Fin (1 # 2)) (Fin 0, Fin (1 # 2)))
                 (analyze_test (Fin (1 # 20)) continuous_pair) ()) = inr v ∧
       field v "test" = Some "Two Sample T-Test" ∧
       field v "metric_type" = Some "continuous_normal".
Proof.
  apply (continuous_dispatch (answering (Fin (1 # 2)) (Fin 0, Fin (1 # 2)))
           (Fin (1 # 20)) continuous_pair () "A" "B" []
           (srm_report (Fin (1 # 20)) (chi2_of (value_counts continuous_pair))
              (Fin (1 # 2)))
           true true);
    reflexivity.
Defined.

(** [one_two] and [two_one] have the counts 1, 2 and 2, 1. *)
Lemma check_srm_permutation_witness :
  check_srm (Fin (1 # 20)) one_two = check_srm (Fin (1 # 20)) two_one.
Proof.
  apply (check_srm_permutation (Fin (1 # 20)) one_two two_one).
  vm_compute. apply perm_swap.
Defined.

(** Opens the tree of [analyze_test] on a frame with two labels, down to
    the calls, exceptions and returned values. *)
Ltac open_tree :=
  unfold _check_normality, proportion_test, two_sample_ttest,
    mann_whitney_u_test, invoke;
  repeat (cbn [sat bind app];
          match goal with
          | |- context [bind (if ?b then _ else _) _] => destruct b
          | |- sat _ _ _ _ (if ?b then _ else _) => destruct b
          | |- _ ∧ _ => split
          | |- ∀ _, _ => intros ?
          end).

(** The calls [analyze_test] makes on a frame with two labels or more: each
    agrees with the classification of the metric over all rows and passes
    the arms of the first two labels, treatment first; no exception is
    raised by [analyze_test] itself, and a verdict is returned right after a
    test. *)
Lemma analyze_test_sat (alpha : float) (df : frame) (c t : string)
    (rest : list string) :
  unique_labels df = c :: t :: rest →
  sat (λ x, treatment_first (arm c df) (arm t df) x ∧
            test_kind_matches (binary_metric df) x)
      (λ _, False)
      (λ tr _, ends_with_test tr)
      [] (analyze_test alpha df).
Proof.
  intros Hlabels.
  rewrite (analyze_test_tree _ _ _ _ _ Hlabels), check_srm_tree.
  destruct (binary_metric df); open_tree;
    try done; by eexists.
Qed.

(** C8: the normality sub-check tests a sample of at most 5000 observations
    as it is; for a larger one it first asks for a random choice of 5000
    observations without replacement and tests the sample it gets; its
    answer is whether the p-value of the Shapiro-Wilk test exceeds
    [alpha]. *)
Theorem normality_check {S} (h : lib S) (alpha : float) (data : list float)
    (s : S) :
  run h (_check_normality alpha data) s =
  if 5000 <? len data then
    let draw := random_choice data 5000 false in
    match h s draw with
    | (s1, Some sample) => shapiro_outcome h alpha [draw] sample s1
    | (s1, None) => Outcome [draw] s1 (inl (LibraryError draw))
    end
  else shapiro_outcome h alpha [] data s.
Proof.
  unfold _check_normality, shapiro_outcome.
  destruct (5000 <? len data); cbn [run bind invoke].
  - destruct (h s (random_choice data 5000 false)) as [s1 [sample|]];
      [|done].
    by destruct (h s1 (shapiro sample)) as [s2 [sp|]].
  - by destruct (h s (shapiro data)) as [s2 [sp|]].
Qed.

(** On finite numbers [fgtb] is the strict order. *)
Lemma fgtb_Fin (p a : Q) : fgtb (Fin p) (Fin a) = true ↔ (a < p)%Q.
Proof.
  unfold fgtb, fltb. rewrite negb_true_iff. split.
  - intros Hle. apply Qnot_le_lt. intros Hpa.
    apply Qle_bool_iff in Hpa. congruence.
  - intros Hlt. destruct (Qle_bool p a) eqn:E; [|done].
    apply Qle_bool_iff in E. by apply Qle_not_lt in E.
Qed.

Lemma fgtb_NaN (a : float) : fgtb NaN a = false.
Proof. by destruct a. Qed.

(** C9: on a frame with two labels or more, a run of [analyze_test] that no
    library call stops returns a verdict with the six keys test, statistic,
    pvalue, significant, metric_type and srm; under srm it holds the record
    that [check_srm] returns on the same frame, with the keys chi2, pvalue
    and srm_detected, whichever test was taken. *)
Theorem verdict_shape {S} (h : lib S) (alpha : float) (df : frame) (s : S)
    (c t : string) (rest : list string) :
  unique_labels df = c :: t :: rest →
  let o := run h (analyze_test alpha df) s in
  match result o with
  | inr v =>
      dom v = verdict_keys ∧
      ∃ srm, result (run h (check_srm alpha df) s) = inr srm ∧
             v !! "srm" = Some (VDict srm) ∧
             dom srm = srm_keys
  | inl e => ∃ x, e = LibraryError x ∧ last (calls o) = Some x
  end.
Proof.
  intros Hlabels. cbv zeta.
  rewrite (analyze_test_tree _ _ _ _ _ Hlabels), run_bind, check_srm_run.
  destruct (h s (srm_call df)) as [s1 [cdf|]]; cbn [calls final result];
    [|by eexists].
  set (srm := srm_report alpha _ cdf).
  match goal with
  | |- context [run h ?p s1] =>
      assert (sat (λ _, True) (λ _, False)
                (λ _ v, dom v = verdict_keys ∧ v !! "srm" = Some (VDict srm))
                [] p) as Hsat
  end.
  { destruct (binary_metric df); open_tree; try done;
      unfold test_result, verdict_keys; rewrite !dom_insert_L; set_solver. }
  destruct (sat_run _ _ _ h _ _ s1 Hsat) as [_ Hres].
  destruct (result (run h _ s1)) as [e|v].
  - destruct Hres as [[]|(x & -> & Hlast)]. exists x. split; [done|].
    by rewrite last_app, Hlast.
  - destruct Hres as [Hdom Hsrm]. split; [done|].
    exists srm. split; [done|]. split; [done|]. apply srm_report_dom.
Qed.

(** On [one_two] the verdict has the six keys. *)
Lemma verdict_shape_witness :
  ∃ v, result (run (answering (Fin (1 # 2)) (Fin 0, Fin (1 # 2)))
                 (analyze_test (Fin (1 # 20)) one_two) ()) = inr v ∧
       dom v = verdict_keys.
Proof.
  pose proof (verdict_shape (answering (Fin (1 # 2)) (Fin 0, Fin (1 # 2)))
                (Fin (1 # 20)) one_two () "A" "B" [] eq_refl) as H.
  cbv zeta in H.
  rewrite (analyze_test_binary_run _ _ one_two () () () "A" "B" []
             (Fin (1 # 2)) (Fin 0, Fin (1 # 2)) eq_refl eq_refl eq_refl
             eq_refl) in H |- *.
  eexists. split; [reflexivity|]. exact (proj1 H).
Defined.






(** The rows of a third variant decide the classification: the arms of "A"
    and "B" in [three_variants] hold zeros and ones only, and the normality
    sub-check and the t-test run all the same. *)
Example third_variant_classifies :
  calls (run (answering (Fin (1 # 2)) (Fin 0, Fin (1 # 2)))
           (analyze_test (Fin (1 # 20)) three_variants) ())
  = [chi2_cdf (Fin 0) 2; shapiro [Fin 1; Fin 0]; shapiro [Fin 0; Fin 1];
     ttest_ind [Fin 0; Fin 1] [Fin 1; Fin 0] false].
Proof. vm_compute. reflexivity. Qed.

(** Scenario 2 of the specification: 900 rows against 100 give Pearson's
    statistic 640, against an expected 500 per variant. *)
Example nine_to_one_statistic :
  chi2_of [900; 100] = Fin 640.
Proof. vm_compute. reflexivity. Qed.

(** * Further properties of the engine *)

(** ** The statistic of the integrity check *)

Lemma Qsum_nonneg (l : list Q) : Forall (λ q, 0 <= q)%Q l → (0 <= Qsum l)%Q.
Proof.
  induction 1 as [|q l Hq _ IH]; simpl; [apply Qle_refl|].
  replace 0%Q with (0 + 0)%Q by done. by apply Qplus_le_compat.
Qed.

Lemma Qsum_zero (l : list Q) :
  Forall (λ q, 0 <= q)%Q l → (Qsum l == 0)%Q → Forall (λ q, q == 0)%Q l.
Proof.
  induction 1 as [|q l Hq Hl IH]; simpl; intros Hs; constructor.
  - pose proof (Qsum_nonneg l Hl) as Hn.
    apply Qle_antisym; [|done]. rewrite <-Hs.
    rewrite <-(Qplus_0_r q) at 1. by apply Qplus_le_compat; [apply Qle_refl|].
  - apply IH. pose proof (Qsum_nonneg l Hl) as Hn.
    apply Qle_antisym; [|done]. rewrite <-Hs.
    rewrite <-(Qplus_0_l (Qsum l)) at 1.
    by apply Qplus_le_compat; [|apply Qle_refl].
Qed.

Lemma mean_count_pos (obs : list Z) :
  Forall (λ c, 0 < c) obs → obs ≠ [] → (0 < mean_count obs)%Q.
Proof.
  intros Hpos Hne. unfold mean_count.
  pose proof (Zsum_pos obs Hpos Hne) as Hs.
  assert (0 < len obs) as Hn by (destruct obs; [done|unfold len; simpl; lia]).
  apply Qlt_shift_div_l; [unfold Qlt; simpl; lia|].
  rewrite Qmult_0_l. unfold Qlt. simpl. lia.
Qed.

Lemma term_nonneg (x e : Q) : (0 < e)%Q → (0 <= (x - e) ^ 2 / e)%Q.
Proof.
  intros He. apply Qle_shift_div_l; [done|]. rewrite Qmult_0_l.
  apply Qsqr_nonneg.
Qed.

Lemma term_zero (x e : Q) :
  (0 < e)%Q → ((x - e) ^ 2 / e == 0)%Q → (x == e)%Q.
Proof.
  intros He H0.
  assert (¬ (e == 0)%Q) as Hne.
  { intros E. rewrite E in He. by apply Qlt_irrefl in He. }
  assert ((x - e) * (x - e) == 0)%Q as Hsq.
  { rewrite <-(Qmult_0_l e), <-H0. simpl. by field. }
  apply Qmult_integral in Hsq.
  assert (x - e == 0)%Q as Hd by (by destruct Hsq).
  rewrite <-(Qplus_0_l e), <-Hd. ring.
Qed.

Lemma pearson_terms_nonneg (obs : list Z) :
  Forall (λ c, 0 < c) obs →
  Forall (λ q, 0 <= q)%Q
    ((λ o, (inject_Z o - mean_count obs) ^ 2 / mean_count obs)%Q <$> obs).
Proof.
  intros Hpos. destruct (decide (obs = [])) as [->|Hne]; [constructor|].
  apply Forall_fmap, Forall_forall. intros o _. simpl.
  by apply term_nonneg, mean_count_pos.
Qed.

Lemma pearson_nonneg (obs : list Z) :
  Forall (λ c, 0 < c) obs → (0 <= pearson obs)%Q.
Proof. intros Hpos. by apply Qsum_nonneg, pearson_terms_nonneg. Qed.

Lemma Qred_zero (q : Q) : Qred q = 0%Q ↔ (q == 0)%Q.
Proof.
  split.
  - intros H. by rewrite <-(Qred_correct q), H.
  - intros H. by rewrite (Qred_Qeq _ _ H).
Qed.

(** Pearson's statistic is zero exactly for equal counts. *)
Lemma pearson_zero_iff (obs : list Z) :
  Forall (λ c, 0 < c) obs →
  (pearson obs == 0)%Q ↔ ∀ a b, a ∈ obs → b ∈ obs → a = b.
Proof.
  intros Hpos. destruct (decide (obs = [])) as [->|Hne].
  { split; [|done]. intros _ a b Ha. by apply elem_of_nil in Ha. }
  pose proof (mean_count_pos obs Hpos Hne) as He. split.
  - intros H0.
    apply Qsum_zero in H0; [|by apply pearson_terms_nonneg].
    rewrite Forall_fmap, Forall_forall in H0.
    assert (∀ a, a ∈ obs → (inject_Z a == mean_count obs)%Q) as Hall.
    { intros a Ha. apply term_zero; [done|]. by apply H0. }
    intros a b Ha Hb. apply Hall in Ha, Hb. rewrite <-Hb in Ha.
    unfold Qeq in Ha. simpl in Ha. lia.
  - intros Heq. unfold pearson. cbv zeta.
    assert (Forall (λ q, q == 0)%Q
              ((λ o, (inject_Z o - mean_count obs) ^ 2 / mean_count obs)%Q
                 <$> obs)) as Hz.
    { apply Forall_fmap, Forall_forall. intros a Ha. simpl.
      assert (inject_Z a == mean_count obs)%Q as ->.
      { unfold mean_count.
        assert (Zsum obs = a * len obs) as ->.
        { unfold len.
          assert (Forall (λ b, b = a) obs) as Hall.
          { apply Forall_forall. intros b Hb. by apply Heq. }
          clear -Hall. induction Hall as [|b l -> _ IH]; simpl; [lia|].
          rewrite IH. lia. }
        assert (0 < len obs) as Hn
            by (destruct obs; [done|unfold len; simpl; lia]).
        rewrite inject_Z_mult. field.
        unfold Qeq. simpl. lia. }
      assert (¬ (mean_count obs == 0)%Q) as Hne'.
      { intros E. rewrite E in He. by apply Qlt_irrefl in He. }
      by field. }
    clear -Hz. induction Hz as [|q l Hq _ IH]; simpl; [done|].
    by rewrite Hq, IH.
Qed.

Lemma check_srm_calls {S} (h : lib S) (alpha : float) (df : frame) (s : S) :
  calls (run h (check_srm alpha df) s) = [srm_call df].
Proof. rewrite check_srm_run. by destruct (h s (srm_call df)) as [s1 [cdf|]]. Qed.

(** X1: the statistic that [check_srm] hands to the chi-square CDF, and
    reports as chi2, is zero exactly when all variants have the same number
    of rows. *)
Theorem srm_zero_iff_balanced {S} (h : lib S) (alpha : float) (df : frame)
    (s : S) :
  calls (run h (check_srm alpha df) s)
  = [chi2_cdf (Fin 0) (len (unique_labels df) - 1)]
  ↔ ∀ a b, a ∈ first_seen_counts df → b ∈ first_seen_counts df → a = b.
Proof.
  rewrite check_srm_calls. unfold srm_call.
  rewrite <-(pearson_zero_iff _ (first_seen_counts_pos df)), <-Qred_zero.
  split; [|by intros ->]. intros H. by injection H.
Qed.

(** X2: the statistic of [check_srm] is a finite number that is not
    negative, for every frame: no division by zero, no NaN. *)
Theorem srm_statistic_nonneg {S} (h : lib S) (alpha : float) (df : frame)
    (s : S) :
  ∃ q, calls (run h (check_srm alpha df) s)
       = [chi2_cdf (Fin q) (len (unique_labels df) - 1)] ∧ (0 <= q)%Q.
Proof.
  exists (Qred (pearson (first_seen_counts df))).
  split; [apply check_srm_calls|].
  rewrite Qred_correct. apply pearson_nonneg, first_seen_counts_pos.
Qed.

Lemma Zsum_cons (x : Z) (l : list Z) : Zsum (x :: l) = x + Zsum l.
Proof. done. Qed.

Lemma Zsum_fmap_add {A} (f g : A → Z) (l : list A) :
  Zsum ((λ v, f v + g v) <$> l) = Zsum (f <$> l) + Zsum (g <$> l).
Proof.
  induction l as [|v l IH]; [done|].
  rewrite !fmap_cons, !Zsum_cons, IH. lia.
Qed.

Lemma Zsum_fmap_zero {A} (f : A → Z) (l : list A) :
  (∀ v, v ∈ l → f v = 0) → Zsum (f <$> l) = 0.
Proof.
  induction l as [|v l IH]; intros Hf; [done|].
  rewrite fmap_cons, Zsum_cons, IH, Hf; [done|by left|].
  intros u Hu. apply Hf. by right.
Qed.

Lemma Zsum_indicator (x : string) (U : list string) :
  NoDup U → x ∈ U →
  Zsum ((λ v, if String.eqb x v then 1 else 0) <$> U) = 1.
Proof.
  induction 1 as [|v U Hv Hnd IH]; [by intros ?%elem_of_nil|].
  intros Hx. rewrite fmap_cons, Zsum_cons.
  destruct (String.eqb x v) eqn:E.
  - apply String.eqb_eq in E as ->. rewrite Zsum_fmap_zero; [done|].
    intros u Hu. destruct (String.eqb v u) eqn:E; [|done].
    apply String.eqb_eq in E as ->. done.
  - apply String.eqb_neq in E. apply elem_of_cons in Hx as [->|Hx]; [done|].
    by rewrite IH.
Qed.

(** The counts per label add up to the number of rows. *)
Lemma counts_total (df : frame) (U : list string) :
  NoDup U → (∀ r, r ∈ df → variant r ∈ U) →
  Zsum ((λ v, Z.of_nat (length (rows_of v df))) <$> U) = len df.
Proof.
  intros Hnd. unfold len. induction df as [|r df IH]; intros Hall.
  - by apply Zsum_fmap_zero.
  - rewrite (list_fmap_ext _
               (λ v, Z.of_nat (length (rows_of v df))
                     + (if String.eqb (variant r) v then 1 else 0)) U).
    + rewrite Zsum_fmap_add, IH, Zsum_indicator; [simpl; lia|done|..].
      * apply Hall. by left.
      * intros r' Hr'. apply Hall. by right.
    + intros _ v _. simpl. destruct (String.eqb (variant r) v); simpl; lia.
Qed.

Lemma first_seen_counts_total (df : frame) :
  Zsum (first_seen_counts df) = len df.
Proof.
  apply counts_total; [apply unique_labels_NoDup|].
  intros r Hr. apply list_elem_of_In, unique_labels_In.
  exists r. by rewrite <-list_elem_of_In.
Qed.

Lemma rows_of_length (v : string) (df : frame) :
  length (rows_of v df)
  = length (List.filter (λ l, String.eqb l v) (variant <$> df)).
Proof.
  unfold rows_of. induction df as [|r df IH]; [done|]. simpl.
  destruct (String.eqb (variant r) v); simpl; by rewrite IH.
Qed.

Lemma filter_length_Permutation {A} (f : A → bool) (l1 l2 : list A) :
  l1 ≡ₚ l2 → length (List.filter f l1) = length (List.filter f l2).
Proof.
  induction 1 as [|x l1 l2 _ IH|x y l|l1 l2 l3 _ IH1 _ IH2]; simpl.
  - done.
  - destruct (f x); simpl; by rewrite IH.
  - by destruct (f x), (f y).
  - by rewrite IH1.
Qed.

(** X5: [check_srm] depends on the frame through the variant labels only,
    and not on their order: frames whose label columns are permutations of
    each other get the same program, whatever their metric columns hold. *)
Theorem srm_depends_on_labels (alpha : float) (df1 df2 : frame) :
  variant <$> df1 ≡ₚ variant <$> df2 →
  check_srm alpha df1 = check_srm alpha df2.
Proof.
  intros Hp. unfold check_srm.
  rewrite (value_counts_canonical df1 df2); [done|].
  unfold first_seen_counts.
  rewrite (list_fmap_ext _ (λ v, Z.of_nat (length (rows_of v df2)))
             (unique_labels df1)).
  - apply fmap_Permutation, NoDup_Permutation; [apply unique_labels_NoDup..|].
    intros v. rewrite !list_elem_of_In, !unique_labels_In.
    assert (∀ df, (∃ r, In r df ∧ variant r = v) ↔ v ∈ variant <$> df) as Hin.
    { intros df. rewrite list_elem_of_fmap. split.
      - intros (r & Hr%list_elem_of_In & <-). by exists r.
      - intros (r & -> & Hr%list_elem_of_In). by exists r. }
    by rewrite !Hin, Hp.
  - intros _ v _. simpl.
    by rewrite !rows_of_length, (filter_length_Permutation _ _ _ Hp).
Qed.

Lemma srm_depends_on_labels_witness :
  check_srm (Fin (1 # 20)) one_two = check_srm (Fin (1 # 20)) two_one.
Proof.
  apply (srm_depends_on_labels (Fin (1 # 20)) one_two two_one).
  vm_compute. apply perm_swap.
Defined.

(** X6: on a frame with fewer than two labels [check_srm] has no guard: it
    asks for the CDF at zero with no degrees of freedom, or with minus one
    on the empty frame, and reports what it gets. *)
Theorem srm_degenerate {S} (h : lib S) (alpha : float) (df : frame) (s : S) :
  (length (unique_labels df) < 2)%nat →
  let q := chi2_cdf (Fin 0) (len (unique_labels df) - 1) in
  len (unique_labels df) - 1 ≤ 0 ∧
  run h (check_srm alpha df) s =
  match h s q with
  | (s1, Some cdf) => Outcome [q] s1 (inr (srm_report alpha (Fin 0) cdf))
  | (s1, None) => Outcome [q] s1 (inl (LibraryError q))
  end.
Proof.
  intros Hn. cbv zeta. split; [unfold len; lia|].
  rewrite check_srm_run. unfold srm_call.
  assert (Qred (pearson (first_seen_counts df)) = 0%Q) as ->; [|done].
  apply Qred_zero, pearson_zero_iff; [apply first_seen_counts_pos|].
  rewrite <-first_seen_counts_length in Hn.
  destruct (first_seen_counts df) as [|a [|b l]]; simpl in Hn; [..|lia].
  - by intros ?? ?%elem_of_nil.
  - by intros ?? ->%list_elem_of_singleton ->%list_elem_of_singleton.
Qed.

Lemma srm_degenerate_witness :
  calls (run (answering NaN (NaN, NaN)) (check_srm (Fin (1 # 20)) []) ())
  = [chi2_cdf (Fin 0) (-1)].
Proof.
  pose proof (srm_degenerate (answering NaN (NaN, NaN)) (Fin (1 # 20)) [] ())
    as H.
  cbv zeta in H. destruct H as [_ ->]; [simpl; lia|]. reflexivity.
Defined.

Lemma fltb_trans (a b c : float) :
  fltb a b = true → fltb b c = true → fltb a c = true.
Proof.
  destruct a as [x| | |], b as [y| | |], c as [z| | |]; simpl; try done.
  rewrite !negb_true_iff. intros Hxy Hyz.
  destruct (Qle_bool z x) eqn:E; [|done].
  apply Qle_bool_iff in E.
  assert (x < y)%Q as H1.
  { apply Qnot_le_lt. intros H%Qle_bool_iff. congruence. }
  assert (y < z)%Q as H2.
  { apply Qnot_le_lt. intros H%Qle_bool_iff. congruence. }
  exfalso. apply (Qlt_irrefl x).
  eapply Qlt_le_trans; [|exact E]. by eapply Qlt_trans.
Qed.

(** X7: a mismatch that [check_srm] flags at one threshold is flagged at
    every larger one, with the same statistic and p-value. *)
Theorem srm_detected_monotone {S} (h : lib S) (alpha alpha' : float)
    (df : frame) (s : S) (d : gmap string atom) :
  fltb alpha alpha' = true →
  result (run h (check_srm alpha df) s) = inr d →
  d !! "srm_detected" = Some (ABool true) →
  ∃ d', result (run h (check_srm alpha' df) s) = inr d' ∧
        d' !! "srm_detected" = Some (ABool true) ∧
        d' !! "chi2" = d !! "chi2" ∧
        d' !! "pvalue" = d !! "pvalue".
Proof.
  intros Hlt. rewrite !check_srm_run.
  destruct (h s (srm_call df)) as [s1 [cdf|]]; [|done].
  cbn [result]. intros [= <-] Hd. eexists. split; [reflexivity|].
  unfold srm_report in *. rewrite lookup_insert_eq in Hd.
  injection Hd as Hd.
  split; [|split; vm_compute; reflexivity].
  rewrite lookup_insert_eq. do 2 f_equal. by apply (fltb_trans _ alpha).
Qed.

Lemma srm_detected_monotone_witness :
  ∃ d', result (run (answering (Fin (99 # 100)) (NaN, NaN))
                  (check_srm (Fin (1 # 10)) one_two) ()) = inr d' ∧
        d' !! "srm_detected" = Some (ABool true).
Proof.
  destruct (srm_detected_monotone (answering (Fin (99 # 100)) (NaN, NaN))
              (Fin (1 # 20)) (Fin (1 # 10)) one_two ()
              (srm_report (Fin (1 # 20)) (chi2_of (value_counts one_two))
                 (Fin (99 # 100))) eq_refl eq_refl eq_refl)
    as (d' & H1 & H2 & _).
  by exists d'.
Defined.

(** ** The verdicts and the calls of the decision engine *)

(** X8: every verdict that [analyze_test] returns is consistent, on every
    frame and with every library: [significant] is [pvalue < alpha] for the
    p-value in the verdict, the test goes with its metric type, and the
    nested integrity record flags a mismatch exactly when its p-value is
    below [alpha]. *)
Theorem verdict_consistent {S} (h : lib S) (alpha : float) (df : frame)
    (s : S) (v : gmap string value) :
  result (run h (analyze_test alpha df) s) = inr v → consistent alpha v.
Proof.
  assert (sat (λ _, True) (λ _, True) (λ _ v, consistent alpha v) []
            (analyze_test alpha df)) as Hsat.
  { unfold analyze_test. rewrite check_srm_tree.
    destruct (unique_labels df) as [|c [|t rest]];
      [by cbn [sat bind getitem lookup list_lookup]..|].
    cbn [getitem lookup list_lookup].
    destruct (set_le _ _); open_tree; try done;
      (split; [eexists; split; reflexivity|]);
      (split; [|eexists _, _; split; [reflexivity|]; split; reflexivity]).
    - apply list_elem_of_here.
    - apply list_elem_of_further, list_elem_of_here.
    - do 2 apply list_elem_of_further. apply list_elem_of_here.
    - apply list_elem_of_further, list_elem_of_here.
    - do 2 apply list_elem_of_further. apply list_elem_of_here.
    - apply list_elem_of_further, list_elem_of_here.
    - do 2 apply list_elem_of_further. apply list_elem_of_here.
    - apply list_elem_of_further, list_elem_of_here.
    - do 2 apply list_elem_of_further. apply list_elem_of_here. }
  destruct (sat_run _ _ _ h _ _ s Hsat) as [_ Hres].
  intros Hv. by rewrite Hv in Hres.
Qed.

Lemma verdict_consistent_witness :
  consistent (Fin (1 # 20))
    (<["srm" := VDict (srm_report (Fin (1 # 20))
                         (Fin (Qred (pearson (first_seen_counts one_two))))
                         (Fin (1 # 2)))]>
     (<["metric_type" := VAtom (AStr "binary")]>
      (test_result (Fin (1 # 20)) "Proportion Z-Test" (Fin 0, Fin (1 # 2))))).
Proof.
  apply (verdict_consistent (answering (Fin (1 # 2)) (Fin 0, Fin (1 # 2)))
           (Fin (1 # 20)) one_two ()).
  rewrite (analyze_test_binary_run _ _ one_two () () () "A" "B" []
             (Fin (1 # 2)) (Fin 0, Fin (1 # 2)) eq_refl eq_refl eq_refl
             eq_refl).
  reflexivity.
Defined.

Lemma inv_run {S A} (I : list call → Prop) (h : lib S) (tr : list call)
    (p : prog A) (s : S) :
  I tr → inv I tr p → I (tr ++ calls (run h p s)).
Proof.
  revert tr s. induction p as [a|e|c k IH]; intros tr s Htr Hp; simpl in *.
  - by rewrite app_nil_r.
  - by rewrite app_nil_r.
  - destruct Hp as [Hc Hk]. destruct (h s c) as [s' [r|]]; simpl; [|done].
    rewrite cons_middle, (assoc_L (++)). by apply IH.
Qed.

(** Opens a tree for [inv], as [open_tree] does for [sat]. *)
Ltac open_inv :=
  unfold _check_normality, proportion_test, two_sample_ttest,
    mann_whitney_u_test, invoke;
  repeat (cbn [inv bind app];
          match goal with
          | |- context [bind (if ?b then _ else _) _] => destruct b
          | |- inv _ _ (if ?b then _ else _) => destruct b
          | |- _ ∧ _ => split
          | |- ∀ _, _ => intros ?
          end).

(** X9: in every run of [analyze_test], on every frame and with every
    library, the first call is the integrity check's, at most six calls are
    made, and no call but the last is a hypothesis test: one test per
    analysis at most. *)
Theorem call_discipline {S} (h : lib S) (alpha : float) (df : frame) (s : S) :
  let o := run h (analyze_test alpha df) s in
  head (calls o) = Some (srm_call df) ∧
  (length (calls o) ≤ 6)%nat ∧
  test_only_last (calls o).
Proof.
  cbv zeta. unfold analyze_test. rewrite check_srm_tree. cbn [bind run].
  destruct (h s (srm_call df)) as [s1 [cdf|]]; cbn [calls];
    [|by repeat split; [simpl; lia|constructor]].
  apply (inv_run (disciplined (srm_call df)) h [srm_call df]).
  { by repeat split; [simpl; lia|constructor]. }
  destruct (unique_labels df) as [|c [|t rest]];
    [by cbn [inv bind getitem lookup list_lookup]..|].
  cbn [getitem lookup list_lookup].
  destruct (set_le _ _); open_inv; try done;
    unfold disciplined, test_only_last;
    (split; [reflexivity|]); (split; [simpl; lia|]);
    simpl; by repeat constructor.
Qed.

(** ** The arms *)

Lemma arm_cons (v : string) (r : row) (df : frame) :
  arm v (r :: df) =
  if String.eqb (variant r) v && negb (isnan (metric r))
  then metric r :: arm v df else arm v df.
Proof.
  unfold arm, rows_of, dropna. simpl.
  destruct (String.eqb (variant r) v); [|done]. simpl.
  by destruct (isnan (metric r)).
Qed.

Lemma arm_elements (v : string) (df : frame) (x : float) :
  x ∈ arm v df →
  isnan x = false ∧ ∃ r, r ∈ df ∧ metric r = x ∧ variant r = v.
Proof.
  induction df as [|r df IH]; [by intros ?%elem_of_nil|].
  rewrite arm_cons.
  destruct (String.eqb (variant r) v) eqn:Ev,
    (isnan (metric r)) eqn:En; simpl.
  - intros (? & r' & ? & ?)%IH. split; [done|]. exists r'. by split; [right|].
  - intros [->|Hx]%elem_of_cons.
    + split; [done|]. exists r. apply String.eqb_eq in Ev. by split; [left|].
    + apply IH in Hx as (? & r' & ? & ?). split; [done|].
      exists r'. by split; [right|].
  - intros (? & r' & ? & ?)%IH. split; [done|]. exists r'. by split; [right|].
  - intros (? & r' & ? & ?)%IH. split; [done|]. exists r'. by split; [right|].
Qed.

(** X10: on a frame with exactly two labels the two arms split the rows
    with a non-null metric between them: their lengths add up to the number
    of such rows, so no observation is lost and none is counted twice. *)
Theorem arms_partition (df : frame) (c t : string) :
  unique_labels df = [c; t] →
  len (arm c df) + len (arm t df) = len (dropna (metric <$> df)).
Proof.
  intros Hlabels.
  assert (c ≠ t) as Hne.
  { pose proof (unique_labels_NoDup df) as Hnd. rewrite Hlabels in Hnd.
    apply NoDup_cons in Hnd as [Hc _]. intros ->. apply Hc. by left. }
  assert (∀ r, r ∈ df → variant r = c ∨ variant r = t) as Hall.
  { intros r Hr.
    assert (In (variant r) (unique_labels df)) as Hin.
    { apply unique_labels_In. exists r. by rewrite <-list_elem_of_In. }
    rewrite Hlabels in Hin. destruct Hin as [<-|[<-|[]]]; auto. }
  clear Hlabels. unfold len. induction df as [|r df IH]; [done|].
  rewrite !arm_cons. cbn [fmap list_fmap dropna List.filter].
  assert (length (arm c df) + length (arm t df)
          = length (dropna (metric <$> df)))%nat as IH'.
  { apply Nat2Z.inj. rewrite Nat2Z.inj_add. apply IH.
    intros r' Hr'. apply Hall. by right. }
  fold (dropna (metric <$> df)).
  destruct (Hall r) as [Hr|Hr]; [by left|..]; rewrite Hr;
    rewrite String.eqb_refl;
    [assert (String.eqb c t = false) as -> by by apply String.eqb_neq
    |assert (String.eqb t c = false) as -> by by apply String.eqb_neq];
    destruct (isnan (metric r)); simpl; lia.
Qed.

Lemma arms_partition_witness :
  len (arm "A" continuous_pair) + len (arm "B" continuous_pair)
  = len (dropna (metric <$> continuous_pair)).
Proof. apply (arms_partition continuous_pair "A" "B"). reflexivity. Defined.

Lemma arm_not_null (v : string) (df : frame) :
  Forall (λ x, isnan x = false) (arm v df).
Proof. apply Forall_forall. by intros x [? _]%arm_elements. Qed.

(** X11: the samples that [analyze_test] passes to Welch's t-test and to
    the Mann-Whitney U test hold no null: the nulls of the metric column
    are dropped from both arms. *)
Theorem tests_get_no_nulls {S} (h : lib S) (alpha : float) (df : frame)
    (s : S) (c t : string) (rest : list string) :
  unique_labels df = c :: t :: rest →
  Forall samples_not_null (calls (run h (analyze_test alpha df) s)).
Proof.
  intros Hlabels.
  destruct (sat_run _ _ _ h [] _ s (analyze_test_sat alpha df c t rest Hlabels))
    as [Hcalls _].
  eapply Forall_impl; [exact Hcalls|].
  intros [] [Hx _]; simpl in *; try done;
    destruct Hx as [-> ->]; split; apply arm_not_null.
Qed.

Lemma tests_get_no_nulls_witness :
  Forall samples_not_null
    (calls (run (answering (Fin (1 # 2)) (Fin 0, Fin (1 # 2)))
              (analyze_test (Fin (1 # 20)) continuous_pair) ())).
Proof.
  apply (tests_get_no_nulls (answering (Fin (1 # 2)) (Fin 0, Fin (1 # 2)))
           (Fin (1 # 20)) continuous_pair () "A" "B" []).
  reflexivity.
Defined.

Lemma binary_metric_elements (df : frame) (r : row) :
  binary_metric df = true → r ∈ df → isnan (metric r) = false →
  feqb (metric r) (Fin 0) || feqb (metric r) (Fin 1) = true.
Proof.
  unfold binary_metric. rewrite forallb_forall.
  intros Hall Hr%list_elem_of_In%Hall Hn. by rewrite Hn in Hr.
Qed.

(** The sum of zeros and ones is their number of ones. *)
Lemma fsum_zeros_ones (l : list float) :
  Forall (λ x, feqb x (Fin 0) || feqb x (Fin 1) = true) l →
  ∃ k, fsum l = of_int k ∧ 0 ≤ k ≤ len l.
Proof.
  unfold len. induction 1 as [|x l Hx _ (k & Hk & Hle)].
  { exists 0. by split. }
  unfold fsum in *. cbn [foldr]. rewrite Hk.
  destruct x as [q| | |]; try done. simpl in Hx.
  apply orb_true_iff in Hx as [Hq%Qeq_bool_iff|Hq%Qeq_bool_iff].
  - exists k. split; [|simpl; lia]. unfold of_int, fadd. f_equal.
    rewrite <-(Qred_inject_Z k) at 2. apply Qred_Qeq. rewrite Hq. ring.
  - exists (1 + k). split; [|simpl; lia]. unfold of_int, fadd. f_equal.
    rewrite <-(Qred_inject_Z (1 + k)). apply Qred_Qeq.
    rewrite Hq, inject_Z_plus. reflexivity.
Qed.

Lemma arm_successes (v : string) (df : frame) :
  binary_metric df = true →
  ∃ k, fsum (arm v df) = of_int k ∧ 0 ≤ k ≤ len (arm v df).
Proof.
  intros Hbin. apply fsum_zeros_ones, Forall_forall.
  intros x (Hn & r & Hr & <- & _)%arm_elements.
  by apply (binary_metric_elements df).
Qed.

(** X12: the proportion Z-test that [analyze_test] calls gets whole
    numbers of successes, each between zero and the observations of its
    arm: on a binary metric the sum of an arm counts its ones. *)
Theorem ztest_counts_in_range {S} (h : lib S) (alpha : float) (df : frame)
    (s : S) (c t : string) (rest : list string) :
  unique_labels df = c :: t :: rest →
  Forall counts_in_range (calls (run h (analyze_test alpha df) s)).
Proof.
  intros Hlabels.
  destruct (sat_run _ _ _ h [] _ s (analyze_test_sat alpha df c t rest Hlabels))
    as [Hcalls _].
  eapply Forall_impl; [exact Hcalls|].
  intros [] [Hx Hbin]; simpl in *; try done.
  destruct Hx as [-> ->].
  destruct (arm_successes t df Hbin) as (kt & -> & Ht).
  destruct (arm_successes c df Hbin) as (kc & -> & Hc).
  by exists kt, kc, (len (arm t df)), (len (arm c df)).
Qed.

Lemma ztest_counts_in_range_witness :
  Forall counts_in_range
    (calls (run (answering (Fin (1 # 2)) (Fin 0, Fin (1 # 2)))
              (analyze_test (Fin (1 # 20)) one_two) ())).
Proof.
  apply (ztest_counts_in_range (answering (Fin (1 # 2)) (Fin 0, Fin (1 # 2)))
           (Fin (1 # 20)) one_two () "A" "B" []).
  reflexivity.
Defined.

(** ** The classifier and the threshold *)

Lemma forallb_Permutation {A} (f : A → bool) (l1 l2 : list A) :
  l1 ≡ₚ l2 → forallb f l1 = forallb f l2.
Proof.
  induction 1 as [|x l1 l2 _ IH|x y l|l1 l2 l3 _ IH1 _ IH2]; simpl.
  - done.
  - by rewrite IH.
  - by destruct (f x), (f y).
  - by rewrite IH1.
Qed.

(** X13: whether [analyze_test] takes a metric for binary depends on the
    values of the metric column only, not on their order nor on the variant
    labels beside them. *)
Theorem classification_by_values (df1 df2 : frame) :
  metric <$> df1 ≡ₚ metric <$> df2 →
  set_le (unique_vals df1) [Fin 0; Fin 1]
  = set_le (unique_vals df2) [Fin 0; Fin 1].
Proof.
  intros Hp. rewrite !set_le_unique_vals. unfold binary_metric.
  assert (∀ df, forallb (λ r, isnan (metric r) || feqb (metric r) (Fin 0)
                              || feqb (metric r) (Fin 1)) df
                = forallb (λ x, isnan x || feqb x (Fin 0) || feqb x (Fin 1))
                    (metric <$> df)) as Hmap.
  { intros df. induction df as [|r df IH]; [done|].
    rewrite fmap_cons. simpl. by rewrite IH. }
  by rewrite !Hmap, (forallb_Permutation _ _ _ Hp).
Qed.

Lemma classification_by_values_witness :
  set_le (unique_vals one_two) [Fin 0; Fin 1]
  = set_le (unique_vals two_one) [Fin 0; Fin 1].
Proof.
  apply (classification_by_values one_two two_one).
  vm_compute. apply perm_swap.
Defined.

(** X14: on a binary metric the threshold plays no part in the choice of
    the test: a verdict that is significant at one threshold is significant
    at every larger one, with the same statistic and p-value. *)
Theorem binary_significance_monotone {S} (h : lib S) (alpha alpha' : float)
    (df : frame) (s : S) (c t : string) (rest : list string)
    (v : gmap string value) :
  unique_labels df = c :: t :: rest →
  binary_metric df = true →
  fltb alpha alpha' = true →
  result (run h (analyze_test alpha df) s) = inr v →
  v !! "significant" = Some (VAtom (ABool true)) →
  ∃ v', result (run h (analyze_test alpha' df) s) = inr v' ∧
        v' !! "significant" = Some (VAtom (ABool true)) ∧
        v' !! "statistic" = v !! "statistic" ∧
        v' !! "pvalue" = v !! "pvalue".
Proof.
  intros Hlabels Hbin Hlt.
  destruct (h s (srm_call df)) as [s1 [cdf|]] eqn:Hcdf.
  - destruct (h s1 (ztest_call (arm c df) (arm t df))) as [s2 [sp|]] eqn:Hz.
    + rewrite !(analyze_test_binary_run h _ df s s1 s2 c t rest cdf sp)
        by done.
      cbn [result]. intros [= <-] Hsig. eexists. split; [reflexivity|].
      assert (fltb (snd sp) alpha = true) as Hp.
      { revert Hsig. unfold test_result.
        rewrite lookup_insert_ne, lookup_insert_ne, lookup_insert_eq by done.
        by intros [= ->]. }
      split; [|split; vm_compute; reflexivity].
      unfold test_result.
      rewrite lookup_insert_ne, lookup_insert_ne, lookup_insert_eq by done.
      do 3 f_equal. by apply (fltb_trans _ alpha).
    + rewrite (analyze_test_tree _ _ _ _ _ Hlabels), Hbin.
      rewrite run_bind, check_srm_run, Hcdf.
      unfold ztest_call in Hz. cbn [calls final result].
      unfold proportion_test. cbn [run bind invoke]. by rewrite Hz.
  - rewrite (analyze_test_tree _ _ _ _ _ Hlabels), run_bind, check_srm_run,
      Hcdf. done.
Qed.

Lemma binary_significance_monotone_witness :
  ∃ v', result (run (answering (Fin (1 # 2)) (Fin 3, Fin (1 # 100)))
                  (analyze_test (Fin (1 # 10)) one_two) ()) = inr v' ∧
        v' !! "significant" = Some (VAtom (ABool true)).
Proof.
  destruct (binary_significance_monotone
              (answering (Fin (1 # 2)) (Fin 3, Fin (1 # 100)))
              (Fin (1 # 20)) (Fin (1 # 10)) one_two () "A" "B" []
              (<["srm" := VDict (srm_report (Fin (1 # 20))
                                   (Fin (Qred (pearson
                                                 (first_seen_counts one_two))))
                                   (Fin (1 # 2)))]>
               (<["metric_type" := VAtom (AStr "binary")]>
                (test_result (Fin (1 # 20)) "Proportion Z-Test"
                   (Fin 3, Fin (1 # 100)))))
              eq_refl eq_refl eq_refl)
    as (v' & H1 & H2 & _).
  - by rewrite (analyze_test_binary_run _ _ one_two () () () "A" "B" []
                  (Fin (1 # 2)) (Fin 3, Fin (1 # 100)) eq_refl eq_refl
                  eq_refl eq_refl).
  - vm_compute. reflexivity.
  - by exists v'.
Defined.

(** * The integrity checker in rounded arithmetic *)

(** C3: in every arithmetic, rounded or not, [check_srm] makes one library
    call, the chi-square CDF at Pearson's statistic of the observed counts
    per variant against their mean, with (number of distinct variants - 1)
    degrees of freedom; it reports that statistic as [chi2], one minus the
    CDF as [pvalue], and [pvalue < alpha] as [srm_detected].  The observed
    counts are the rows per distinct label, largest first. *)
Theorem check_srm_statistic {S} (rnd : Q → float)
    (vsum : list float → float) (vmean : list Z → float) (h : lib S)
    (alpha : float) (df : frame) (s : S) :
  let observed := value_counts df in
  let chi2 := pearson_with rnd vsum vmean observed in
  let q := chi2_cdf chi2 (len (unique_labels df) - 1) in
  observed ≡ₚ first_seen_counts df ∧
  run h (check_srm_with rnd vsum vmean alpha df) s =
  match h s q with
  | (s1, Some cdf) =>
      let pvalue := rsub rnd (Fin 1) cdf in
      Outcome [q] s1
        (inr (<["srm_detected" := ABool (fltb pvalue alpha)]>
              (<["pvalue" := ANum pvalue]>
              (<["chi2" := ANum chi2]> ∅))))
  | (s1, None) => Outcome [q] s1 (inl (LibraryError q))
  end.
Proof.
  cbv zeta. split; [apply value_counts_Permutation|].
  unfold check_srm_with, pearson_with, np_repeat, len.
  rewrite zip_with_replicate, value_counts_length.
  cbn [run bind invoke].
  by destruct (h s _) as [s1 [cdf|]].
Qed.

(** [check_srm] is [check_srm_with] in the arithmetic that does not
    round. *)
Lemma check_srm_exact (alpha : float) (df : frame) :
  check_srm_with exact fsum np_mean alpha df = check_srm alpha df.
Proof.
  assert (∀ l k,
            zip_with (λ c e, rdiv exact
                               (let d := rsub exact (rof_int exact c) e in
                                rmul exact d d) e) l k
            = zip_with (λ c e, fdiv (let d := fsub (of_int c) e in fmul d d) e)
                l k) as Hterms.
  { intros l k. apply zip_with_ext; [|done..]. intros c e.
    unfold rof_int, exact, of_int. by rewrite Qred_inject_Z. }
  unfold check_srm_with, check_srm. by rewrite Hterms.
Qed.

(** In binary64 the statistic of two rows against one is the double
    0.3333333333333333, and not one third. *)
Example statistic_binary64 :
  pearson_with round64 sum64 mean64 [2; 1]
  = Fin (6004799503160661 # 18014398509481984).
Proof. vm_compute. reflexivity. Qed.

(** In binary64 the mean of the counts 4, 3, 3 is the double
    3.3333333333333335. *)
Example mean_binary64 :
  mean64 [4; 3; 3] = Fin (7505999378950827 # 2251799813685248).
Proof. vm_compute. reflexivity. Qed.

(** In binary64 one minus a CDF of 1/4 + 2^-54 is 3/4, so that at the
    threshold 3/4 no mismatch is flagged. *)
Example pvalue_binary64 :
  result (run (answering (Fin (4503599627370497 # 18014398509481984))
                 (NaN, NaN))
            (check_srm_with round64 sum64 mean64 (Fin (3 # 4)) one_two) ())
  = inr (<["srm_detected" := ABool false]>
         (<["pvalue" := ANum (Fin (3 # 4))]>
         (<["chi2" := ANum (Fin (6004799503160661 # 18014398509481984))]>
          ∅))).
Proof. vm_compute. reflexivity. Qed.

(** X4: the counts that [check_srm] takes from the frame are positive, one
    per distinct label, and add up to the number of rows: the mean they are
    compared with stands for an even split of the rows over the labels. *)
Theorem srm_counts_total (df : frame) :
  Zsum (value_counts df) = len df ∧
  len (value_counts df) = len (unique_labels df) ∧
  Forall (λ c, 0 < c) (value_counts df).
Proof.
  split; [|split].
  - by rewrite (Zsum_Permutation _ _ (value_counts_Permutation df)),
      first_seen_counts_total.
  - unfold len. by rewrite value_counts_length.
  - rewrite value_counts_Permutation. apply first_seen_counts_pos.
Qed.

(** * The order of the arms in the tests *)

Lemma transcript_calls {S A} (h : lib S) (p : prog A) (s : S) (a : A) :
  result (run h p s) = inr a →
  (transcript h p s).*1 = calls (run h p s).
Proof.
  revert s. induction p as [a'|e|c k IH]; intros s; simpl; [done..|].
  destruct (h s c) as [s' [r|]]; simpl; [|done].
  intros Hr. f_equal. by apply IH.
Qed.

(** A run of a program that satisfies [satl E Q]: it returns a value that
    satisfies [Q] with the answered calls, or stops at an exception of the
    program that satisfies [E], or at the exception of the library call
    made last. *)
Lemma satl_run {S A} (E : exn → Prop) (Q : list (call * answer) → A → Prop)
    (h : lib S) (lg : list (call * answer)) (p : prog A) (s : S) :
  satl E Q lg p →
  match result (run h p s) with
  | inr a => Q (lg ++ transcript h p s) a
  | inl e => E e ∨ ∃ c, e = LibraryError c ∧ last (calls (run h p s)) = Some c
  end.
Proof.
  revert lg s. induction p as [a|e|c k IH]; intros lg s Hp; simpl in *.
  - by rewrite app_nil_r.
  - by left.
  - destruct (h s c) as [s' [r|]]; simpl.
    + specialize (IH r _ s' (Hp r)).
      destruct (result (run h (k r) s')) as [e|a].
      * destruct IH as [He|(c' & -> & Hlast)]; [by left|right].
        exists c'. split; [done|]. by destruct (calls (run h (k r) s')).
      * by rewrite cons_middle, (assoc_L (++)).
    + right. by exists c.
Qed.

(** Opens a tree for [satl], as [open_tree] does for [sat]. *)
Ltac open_log :=
  unfold _check_normality, proportion_test, two_sample_ttest,
    mann_whitney_u_test, invoke;
  repeat (cbn [satl bind app to_answer];
          match goal with
          | |- context [bind (if ?b then _ else _) _] => destruct b
          | |- satl _ _ _ (if ?b then _ else _) => destruct b
          | |- ∀ _, _ => intros ?
          end).

(** On a frame with two labels or more, [analyze_test] raises nothing by
    itself, and each verdict holds the answer to the test that was called
    last, with the treatment arm first. *)
Lemma analyze_test_satl (alpha : float) (df : frame) (c t : string)
    (rest : list string) :
  unique_labels df = c :: t :: rest →
  satl (λ _, False) (verdict_of_test (arm c df) (arm t df)) []
    (analyze_test alpha df).
Proof.
  intros Hlabels.
  rewrite (analyze_test_tree _ _ _ _ _ Hlabels), check_srm_tree.
  destruct (binary_metric df); open_log;
    eexists _, _; (split; [reflexivity|]); (split; [reflexivity|]);
    (split; [by split|]); split; vm_compute; reflexivity.
Qed.

(** C7: on a frame with two labels or more every test that [analyze_test]
    calls gets the treatment arm (the second label's) first and the control
    arm (the first label's) second: the proportion Z-test the sums and the
    lengths in that order, the t-test and the Mann-Whitney U test the two
    samples.  A run stops only at the exception of a library call;
    otherwise the last call is such a test, the library answered it, and
    the statistic and the p-value of the verdict are that answer. *)
Theorem treatment_first_order {S} (h : lib S) (alpha : float) (df : frame)
    (s : S) (c t : string) (rest : list string) :
  unique_labels df = c :: t :: rest →
  let o := run h (analyze_test alpha df) s in
  let lg := transcript h (analyze_test alpha df) s in
  Forall (treatment_first (arm c df) (arm t df)) (calls o) ∧
  match result o with
  | inr v => lg.*1 = calls o ∧ verdict_of_test (arm c df) (arm t df) lg v
  | inl e => ∃ x, e = LibraryError x ∧ last (calls o) = Some x
  end.
Proof.
  intros Hlabels. cbv zeta. split.
  - destruct (sat_run _ _ _ h [] _ s
                (analyze_test_sat alpha df c t rest Hlabels)) as [Hcalls _].
    eapply Forall_impl; [exact Hcalls|]. by intros x [Hx _].
  - pose proof (satl_run _ _ h [] _ s
                  (analyze_test_satl alpha df c t rest Hlabels)) as Hres.
    destruct (result (run h (analyze_test alpha df) s)) as [e|v] eqn:Hr.
    + by destruct Hres as [[]|Hres].
    + split; [by apply (transcript_calls _ _ _ v)|done].
Qed.

(** On [continuous_pair], with p-values of one half throughout, the verdict
    holds the answer to Welch's t-test on the arm of "B" and the arm of
    "A", in that order. *)
Lemma treatment_first_order_witness :
  verdict_of_test [Fin (3 # 2); Fin 2; Fin 1] [Fin (5 # 2); Fin 4]
    (transcript (answering (Fin (1 # 2)) (Fin 7, Fin (1 # 2)))
       (analyze_test (Fin (1 # 20)) continuous_pair) ())
    (<["srm" := VDict (srm_report (Fin (1 # 20))
                         (chi2_of (value_counts continuous_pair))
                         (Fin (1 # 2)))]>
     (<["metric_type" := VAtom (AStr "continuous_normal")]>
      (test_result (Fin (1 # 20)) "Two Sample T-Test"
         (Fin 7, Fin (1 # 2))))).
Proof.
  pose proof (treatment_first_order
                (answering (Fin (1 # 2)) (Fin 7, Fin (1 # 2)))
                (Fin (1 # 20)) continuous_pair () "A" "B" [] eq_refl) as H.
  cbv zeta in H. exact (proj2 (proj2 H)).
Defined.
